(** * Proxmox VE community-scripts engine: catalogue fetch, cache and ranking

    A shallow embedding of [searx/engines/community_scripts_proxmoxve.py]
    and the properties of its fetcher, its cache-backed loader and its
    scorer.

    Conventions of the embedding:
    - a Python [str] is a list of characters with code points below 256
      (Latin-1); [str.lower], [str.isspace], [str.strip] and [str.split]
      are written out for that range;
    - a Python exception is a value of [exn]; code that can raise returns a
      [result]; code that also touches the cache runs in the monad [M];
    - the persistent cache, the HTTP client, [pickle] and [zlib] are
      collaborators of the engine: the cache is a finite map with an expiry
      time per key, the HTTP exchange is an argument of the fetcher, and the
      codec is an interface ([Codec]). *)

From Stdlib Require Import ZArith List Ascii String Sorted Permutation Lia.
From stdpp Require Import base tactics option list sorting gmap strings.

Local Open Scope Z_scope.

(** ** Python strings *)

Abbreviation pystr := (list ascii) (only parsing).

(** A string literal of the source. *)
Definition str (s : string) : list ascii := list_ascii_of_string s.
Global Arguments str : simpl never.

(** [c.isspace()] for a character below 256. *)
Definition isspace (c : ascii) : bool :=
  let n := N_of_ascii c in
  ((9 <=? n) && (n <=? 13) || (28 <=? n) && (n <=? 32) || (n =? 133) || (n =? 160))%N.

(** [c.lower()] for a character below 256: A-Z and the upper-case Latin-1
    letters (192-222 but the multiplication sign 215) move up by 32. *)
Definition lower_char (c : ascii) : ascii :=
  let n := N_of_ascii c in
  if ((65 <=? n) && (n <=? 90) || (192 <=? n) && (n <=? 222) && negb (n =? 215))%N
  then ascii_of_N (n + 32) else c.

(** [s.lower()] *)
Definition lower (s : pystr) : pystr := map lower_char s.

(** [s.lstrip()] *)
Fixpoint lstrip (s : pystr) : pystr :=
  match s with
  | [] => []
  | c :: s' => if isspace c then lstrip s' else s
  end.

(** [s.strip()] *)
Definition strip (s : pystr) : pystr := reverse (lstrip (reverse (lstrip s))).

(** [s.split()]: the maximal runs of non-whitespace characters. [cur] is
    the run being read. *)
Fixpoint split_from (cur : pystr) (s : pystr) : list pystr :=
  match s with
  | [] => match cur with [] => [] | _ => [cur] end
  | c :: s' =>
      if isspace c
      then match cur with [] => split_from [] s' | _ => cur :: split_from [] s' end
      else split_from (cur ++ [c]) s'
  end.

Definition split (s : pystr) : list pystr := split_from [] s.

(** [s.startswith(w)] *)
Fixpoint startswith (w s : pystr) : bool :=
  match w, s with
  | [], _ => true
  | _ :: _, [] => false
  | a :: w', b :: s' => bool_decide (a = b) && startswith w' s'
  end.

(** [w in s] for two strings. *)
Fixpoint str_in (w s : pystr) : bool :=
  startswith w s || match s with [] => false | _ :: s' => str_in w s' end.

(** [s.rsplit(" ", 1)[0]]: what precedes the last space of [s], all of [s]
    when it has none. [before_last_space] is [None] in the second case. *)
Definition space : ascii := " "%char.

Fixpoint before_last_space (s : pystr) : option pystr :=
  match s with
  | [] => None
  | c :: s' =>
      match before_last_space s' with
      | Some p => Some (c :: p)
      | None => if bool_decide (c = space) then Some [] else None
      end
  end.

Definition rsplit_space_head (s : pystr) : pystr :=
  match before_last_space s with Some p => p | None => s end.

(** ** Exceptions *)

Inductive exn : Set :=
  | ValueError | TypeError | EOFError
  | HTTPError | TimeoutException
  | zlib_error
  | PickleError | PicklingError | UnpicklingError.

Global Instance exn_eq_dec : EqDecision exn.
Proof. solve_decision. Defined.

(** [issubclass e cls]: [TimeoutException] derives from [HTTPError] (httpx),
    [PicklingError] and [UnpicklingError] from [PickleError]. *)
Definition issubclass (e cls : exn) : bool :=
  bool_decide (e = cls) ||
  match e, cls with
  | TimeoutException, HTTPError => true
  | PicklingError, PickleError => true
  | UnpicklingError, PickleError => true
  | _, _ => false
  end.

(** [except (c1, c2, ...)] catches [e]. *)
Definition caught (e : exn) (classes : list exn) : bool :=
  existsb (issubclass e) classes.

Inductive result (A : Type) : Type :=
  | Ok (a : A)
  | Raise (e : exn).
Arguments Ok {A} a.
Arguments Raise {A} e.

Definition rbind {A B} (r : result A) (k : A → result B) : result B :=
  match r with Ok a => k a | Raise e => Raise e end.

(** [try: body except classes: handler] for code without state. *)
Definition rtry {A} (body : result A) (classes : list exn) (handler : result A)
  : result A :=
  match body with
  | Ok a => Ok a
  | Raise e => if caught e classes then handler else Raise e
  end.

(** ** The remote payload *)

(** A decoded JSON value, as [resp.json()] returns it. A [dict] is kept as
    its items, [dict_get] returns the first binding of a key. *)
#[warnings="-register-all"] Inductive pyjson : Type :=
  | JNone
  | JBool (b : bool)
  | JInt (z : Z)
  | JFloat (digits : list ascii)
  | JStr (s : list ascii)
  | JList (l : list pyjson)
  | JDict (items : list (list ascii * pyjson)).

Fixpoint dict_get (k : pystr) (items : list (pystr * pyjson)) : option pyjson :=
  match items with
  | [] => None
  | (k', v) :: rest => if bool_decide (k' = k) then Some v else dict_get k rest
  end.

(** [v is True] *)
Definition is_True (v : option pyjson) : bool :=
  match v with Some (JBool true) => true | _ => false end.

(** One catalogue record: the dict with the keys "name", "slug" and
    "description" that [_fetch_scripts] builds. *)
Record script : Type := Script {
  name : list ascii;
  slug : list ascii;
  description : list ascii;
}.

Global Instance script_eq_dec : EqDecision script.
Proof. solve_decision. Defined.

(** What the HTTP collaborator does with the one request of a fetch. *)
Inductive body : Type :=
  | Undecodable
  | Decoded (data : pyjson).

Inductive http_outcome : Type :=
  | TransportFailure
  | Timeout
  | Responded (status_code : Z) (b : body).

Record response : Type := Response { status_code : Z; resp_body : body }.

(** [get(url, timeout=30)] *)
Definition get (net : http_outcome) : result response :=
  match net with
  | TransportFailure => Raise HTTPError
  | Timeout => Raise TimeoutException
  | Responded st b => Ok (Response st b)
  end.

(** [resp.json()]: a [JSONDecodeError] is a [ValueError]. *)
Definition json (resp : response) : result pyjson :=
  match resp_body resp with
  | Undecodable => Raise ValueError
  | Decoded data => Ok data
  end.

(** ** The fetcher *)

(** The state of the two loops of [_fetch_scripts]: [seen] and [scripts]. *)
Definition fetch_state : Type := gset (list ascii) * list script.

(** The body of the inner loop, for one entry of a category's list. *)
Definition fetch_script (st : fetch_state) (entry : pyjson) : fetch_state :=
  match entry with
  | JDict items =>
      match dict_get (str "name") items, dict_get (str "slug") items with
      | Some (JStr name0), Some (JStr slug0) =>
          let name1 := strip name0 in
          let slug1 := strip slug0 in
          if bool_decide (name1 = []) || bool_decide (slug1 = []) then st
          else if is_True (dict_get (str "disable") items) then st
          else if bool_decide (slug1 ∈ st.1) then st
          else
            let description1 :=
              match dict_get (str "description") items with
              | Some (JStr d) => take 500 d
              | _ => []
              end in
            ({[ slug1 ]} ∪ st.1, st.2 ++ [Script name1 slug1 description1])
      | _, _ => st
      end
  | _ => st
  end.

(** [category.get("scripts", [])] *)
Definition category_scripts (items : list (pystr * pyjson)) : pyjson :=
  match dict_get (str "scripts") items with
  | Some v => v
  | None => JList []
  end.

(** The body of the outer loop, for one entry of the payload. *)
Definition fetch_category (st : fetch_state) (category : pyjson) : fetch_state :=
  match category with
  | JDict items =>
      match category_scripts items with
      | JList entries => fold_left fetch_script entries st
      | _ => st
      end
  | _ => st
  end.

(** The two loops, over a payload that is a list. *)
Definition fetch_loop (data : list pyjson) : list script :=
  (fold_left fetch_category data (∅, [])).2.

(** The [try] block of [_fetch_scripts]: [None] is its [return []]. *)
Definition fetch_request (net : http_outcome) : result (option pyjson) :=
  rbind (get net) (λ resp,
    if bool_decide (status_code resp ≠ 200) then Ok None
    else rbind (json resp) (λ data, Ok (Some data))).

Definition _fetch_scripts (net : http_outcome) : result (list script) :=
  rbind (rtry (fetch_request net) [ValueError; HTTPError; TimeoutException] (Ok None))
    (λ r,
      match r with
      | None => Ok []
      | Some (JList data) => Ok (fetch_loop data)
      | Some _ => Ok []
      end).

(** ** Module constants *)

Definition _SCRIPT_URL_prefix : list ascii :=
  str "https://community-scripts.github.io/ProxmoxVE/scripts?id=".
Definition _CACHE_TTL : Z := 43200.
Definition _MAX_RESULTS : nat := 20.
Definition _MAX_CACHE_VALUE_LEN : Z := 10240.

(** ** The scorer and the ranking *)

(** The loop of [_score_script]; [score] is the running total, and the
    [return 0] of a word found in neither field ends the loop. *)
Fixpoint score_loop (name_lower desc_lower : pystr) (words : list pystr)
    (score : Z) : Z :=
  match words with
  | [] => score
  | word :: rest =>
      let in_name := str_in word name_lower in
      let in_desc := str_in word desc_lower in
      let score1 := if in_name then score + 10 else score in
      let score2 := if in_desc then score1 + 5 else score1 in
      if in_name || in_desc then score_loop name_lower desc_lower rest score2
      else 0
  end.

Definition _score_script (sc : script) (words : list pystr) : Z :=
  score_loop (lower (name sc)) (lower (description sc)) words 0.

(** [[(s, script) for script in scripts if (s := _score_script(script, words)) > 0]] *)
Fixpoint scored_scripts (scripts : list script) (words : list pystr)
  : list (Z * script) :=
  match scripts with
  | [] => []
  | sc :: rest =>
      let s := _score_script sc words in
      if 0 <? s then (s, sc) :: scored_scripts rest words
      else scored_scripts rest words
  end.

(** [list.sort(key=lambda x: x[0], reverse=True)]: Python's sort is stable,
    also with [reverse=True]. [insert_desc x l] puts [x] in front of the
    first element of [l] whose key is not greater than that of [x]. *)
Fixpoint insert_desc (x : Z * script) (l : list (Z * script)) : list (Z * script) :=
  match l with
  | [] => [x]
  | y :: l' => if x.1 <? y.1 then y :: insert_desc x l' else x :: l
  end.

Fixpoint sort_desc (l : list (Z * script)) : list (Z * script) :=
  match l with
  | [] => []
  | x :: l' => insert_desc x (sort_desc l')
  end.

(** [scored[:_MAX_RESULTS]] after the sort. *)
Definition rank (scripts : list script) (words : list pystr) : list (Z * script) :=
  take _MAX_RESULTS (sort_desc (scored_scripts scripts words)).

(** The [content] of a result. *)
Definition result_content (description0 : pystr) : pystr :=
  if 300 <? Z.of_nat (length description0)
  then rsplit_space_head (take 300 description0) ++ str "..."
  else description0.

Record MainResult : Type := mkMainResult {
  url : list ascii;
  title : list ascii;
  content : list ascii;
}.

Definition main_result (sc : script) : MainResult :=
  {| url := _SCRIPT_URL_prefix ++ slug sc;
     title := name sc;
     content := result_content (description sc) |}.

(** The last loop of [search]: one result per ranked record. *)
Definition results_of (ranked : list (Z * script)) : list MainResult :=
  map (λ x, main_result x.2) ranked.

(** ** The persistent cache *)

(** The engine stores two kinds of values: the compressed bytes of one
    record, and the list of slugs of the index. *)
Inductive cache_value : Type :=
  | VBytes (b : list Byte.byte)
  | VList (l : list (list ascii)).

Record cache_entry : Type := CacheEntry {
  entry_value : cache_value;
  entry_expires : Z;
}.

Inductive cache_op : Type :=
  | OpGet (key : list ascii)
  | OpSet (key : list ascii) (value : cache_value) (expire : Z).

(** The cache and its surroundings: the stored entries, the time of the
    call, and the calls made to the cache so far (latest last). One call of
    the engine is taken to happen at one time: the clock does not move
    between its cache calls, it moves between calls of the engine
    ([at_time]). *)
Record world : Type := World {
  store : gmap (list ascii) cache_entry;
  clock : Z;
  trace : list cache_op;
}.

(** What [CACHE.get(key)] finds at time [now]: [None] for a key never set or
    set longer ago than its [expire]. *)
Definition store_get (key : pystr) (now : Z) (m : gmap (list ascii) cache_entry)
  : option cache_value :=
  match m !! key with
  | Some e => if now <? entry_expires e then Some (entry_value e) else None
  | None => None
  end.

(** The monad of code that uses the cache and may raise: the writes made
    before an exception stay. *)
Definition M (A : Type) : Type := world → result A * world.

Definition ret {A} (a : A) : M A := λ w, (Ok a, w).

Definition bind {A B} (m : M A) (k : A → M B) : M B :=
  λ w, match m w with
       | (Ok a, w') => k a w'
       | (Raise e, w') => (Raise e, w')
       end.

Definition lift {A} (r : result A) : M A := λ w, (r, w).

(** [try: body except classes: handler] *)
Definition try_except {A} (body : M A) (classes : list exn) (handler : M A) : M A :=
  λ w, match body w with
       | (Ok a, w') => (Ok a, w')
       | (Raise e, w') => if caught e classes then handler w' else (Raise e, w')
       end.

Declare Scope py_scope.
Delimit Scope py_scope with py.
Notation "x <- m ;; k" := (bind m (λ x, k))
  (at level 100, m at next level, right associativity) : py_scope.
Notation "m ;;; k" := (bind m (λ _, k))
  (at level 100, right associativity) : py_scope.

(** [CACHE.get(key)] *)
Definition CACHE_get (key : pystr) : M (option cache_value) :=
  λ w, (Ok (store_get key (clock w) (store w)),
        World (store w) (clock w) (trace w ++ [OpGet key])).

(** [CACHE.set(key, value, expire=expire)] *)
Definition CACHE_set (key : pystr) (value : cache_value) (expire : Z) : M unit :=
  λ w, (Ok tt,
        World (<[key := CacheEntry value (clock w + expire)]> (store w)) (clock w)
              (trace w ++ [OpSet key value expire])).

(** ** The codec: [pickle] and [zlib] *)

(** The four library calls of the engine. Each may raise. The engine
    pickles records only, so what [pickle.loads] returns is a record. *)
Class Codec : Type := {
  pickle_dumps : script → result (list Byte.byte);
  zlib_compress : list Byte.byte → result (list Byte.byte);
  zlib_decompress : list Byte.byte → result (list Byte.byte);
  pickle_loads : list Byte.byte → result script;
}.

(** ** The engine: cache writes, cache reads, [init] and [search] *)

Section Engine.
Context `{codec : Codec}.
Local Open Scope py_scope.

(** The key of a record: [f"script_{slug}"]. *)
Definition script_key (slug0 : pystr) : pystr := str "script_" ++ slug0.

(** The key of the index. *)
Definition slugs_list_key : pystr := str "script_slugs_list".

(** [len(compressed_script) > _MAX_CACHE_VALUE_LEN] *)
Definition too_large (compressed : list Byte.byte) : bool :=
  _MAX_CACHE_VALUE_LEN <? Z.of_nat (length compressed).

(** The [for script in scripts] loop of the cache write, the same in [init]
    and in [search]; [slugs] is the list the loop appends to. *)
Fixpoint cache_loop (scripts : list script) (slugs : list pystr) : M (list pystr) :=
  match scripts with
  | [] => ret slugs
  | sc :: rest =>
      match slug sc with
      | [] => cache_loop rest slugs
      | _ :: _ =>
          let slugs1 := slugs ++ [slug sc] in
          serialized_script <- lift (pickle_dumps sc) ;;
          compressed_script <- lift (zlib_compress serialized_script) ;;
          if too_large compressed_script then cache_loop rest slugs1
          else
            CACHE_set (script_key (slug sc)) (VBytes compressed_script) _CACHE_TTL ;;;
            cache_loop rest slugs1
      end
  end.

(** The body of the [try] of the cache write: the loop, then the index. *)
Definition cache_scripts (scripts : list script) : M unit :=
  slugs <- cache_loop scripts [] ;;
  CACHE_set slugs_list_key (VList slugs) _CACHE_TTL.

Definition init (net : http_outcome) : M bool :=
  scripts <- lift (_fetch_scripts net) ;;
  match scripts with
  | [] => ret true
  | _ :: _ =>
      try_except (cache_scripts scripts ;;; ret true)
        [PickleError; zlib_error] (ret false)
  end.

(** [if cached_script:] *)
Definition truthy (v : option cache_value) : bool :=
  match v with
  | None => false
  | Some (VBytes []) => false
  | Some (VList []) => false
  | Some _ => true
  end.

(** [zlib.decompress(cached_script)]: only bytes can be decompressed. *)
Definition decompress_value (v : option cache_value) : result (list Byte.byte) :=
  match v with
  | Some (VBytes b) => zlib_decompress b
  | _ => Raise TypeError
  end.

(** The [for slug in slugs_list] loop of [search]: the pair of
    [retrieval_successful] and [temp_scripts] when the loop ends. *)
Fixpoint read_loop (slugs_list : list pystr) (temp_scripts : list script)
  : M (bool * list script) :=
  match slugs_list with
  | [] => ret (true, temp_scripts)
  | slug0 :: rest =>
      cached_script <- CACHE_get (script_key slug0) ;;
      if truthy cached_script then
        r <- try_except
               (decompressed_script <- lift (decompress_value cached_script) ;;
                sc <- lift (pickle_loads decompressed_script) ;;
                ret (Some sc))
               [zlib_error; UnpicklingError] (ret None) ;;
        match r with
        | Some sc => read_loop rest (temp_scripts ++ [sc])
        | None => ret (false, temp_scripts)
        end
      else ret (false, temp_scripts)
  end.

(** The read path of [search]: [scripts] after the attempt to rebuild the
    list from the cache. *)
Definition read_cached_scripts : M (list script) :=
  slugs_list <- CACHE_get slugs_list_key ;;
  match slugs_list with
  | Some (VList (slug0 :: rest)) =>
      r <- read_loop (slug0 :: rest) [] ;;
      if r.1 then ret r.2 else ret []
  | _ => ret []
  end.

(** The refetch of [search], entered when [scripts] is still empty. *)
Definition refetch_scripts (net : http_outcome) : M (list script) :=
  scripts <- lift (_fetch_scripts net) ;;
  match scripts with
  | [] => ret scripts
  | _ :: _ =>
      try_except (cache_scripts scripts) [PickleError; zlib_error] (ret tt) ;;;
      ret scripts
  end.

(** The loader: [scripts] when [search] starts to score. *)
Definition load_scripts (net : http_outcome) : M (list script) :=
  scripts <- read_cached_scripts ;;
  match scripts with
  | [] => refetch_scripts net
  | _ :: _ => ret scripts
  end.

(** [not query or not query.strip()] *)
Definition blank (query : pystr) : bool :=
  match query with
  | [] => true
  | _ :: _ => match strip query with [] => true | _ :: _ => false end
  end.

Definition search (query : pystr) (net : http_outcome) : M (list MainResult) :=
  if blank query then ret []
  else
    scripts <- load_scripts net ;;
    match scripts with
    | [] => ret []
    | _ :: _ =>
        let words := split (lower query) in
        ret (results_of (rank scripts words))
    end.

End Engine.

(** The same stored entries and calls at another time of day. *)
Definition at_time (t : Z) (w : world) : world := World (store w) t (trace w).

(** ** Notions used by the statements *)

(** The entries of one category that the inner loop visits. *)
Definition category_entries (category : pyjson) : list pyjson :=
  match category with
  | JDict items =>
      match category_scripts items with
      | JList entries => entries
      | _ => []
      end
  | _ => []
  end.

(** The normalization of one entry, as the specification lists it: name and
    slug are strings, both are trimmed and non-empty, the record is not
    disabled, the description is cut to 500 characters (empty when absent or
    not a string). *)
Definition normalize_entry (entry : pyjson) : option script :=
  match entry with
  | JDict items =>
      match dict_get (str "name") items, dict_get (str "slug") items with
      | Some (JStr n), Some (JStr s) =>
          if bool_decide (strip n = []) || bool_decide (strip s = []) then None
          else if is_True (dict_get (str "disable") items) then None
          else Some (Script (strip n) (strip s)
                       match dict_get (str "description") items with
                       | Some (JStr d) => take 500 d
                       | _ => []
                       end)
      | _, _ => None
      end
  | _ => None
  end.

(** The acceptable records of a payload in scanning order: categories from
    top to bottom, the entries of each category from top to bottom. *)
Definition candidates (data : list pyjson) : list script :=
  omap normalize_entry (concat (map category_entries data)).



(** The contribution of one token of a query to the score of a record. *)
Definition token_in_name (sc : script) (token : pystr) : bool :=
  str_in (lower token) (lower (name sc)).

Definition token_in_description (sc : script) (token : pystr) : bool :=
  str_in (lower token) (lower (description sc)).

Definition token_found (sc : script) (token : pystr) : bool :=
  token_in_name sc token || token_in_description sc token.

Definition token_points (sc : script) (token : pystr) : Z :=
  (if token_in_name sc token then 10 else 0)
  + (if token_in_description sc token then 5 else 0).

Definition sum_points (sc : script) (tokens : list pystr) : Z :=
  foldr (λ token acc, token_points sc token + acc) 0 tokens.

(** Sorted by score, highest first. *)
Definition by_score_desc (l : list (Z * script)) : Prop :=
  StronglySorted (λ a b, b.1 ≤ a.1) l.

(** The elements of [l] that have score [s], in the order of [l]. *)
Definition with_score (s : Z) (l : list (Z * script)) : list (Z * script) :=
  filter (λ x, x.1 = s) l.

(** ** A codec to run the engine on *)

(** The three fields of a record separated by NUL bytes, behind the two
    bytes of a zlib header, stored without compression. It raises what
    [pickle] and [zlib] raise on bad input: [zlib.error] for a wrong header,
    [EOFError] for an empty pickle, [UnpicklingError] for a pickle with
    fewer than three fields. It is an instance to run the engine on, not
    zlib: the general statements below hold for every codec, and the runs
    whose outcome depends on a size use records that real zlib puts on the
    same side of the cap (short records; a record with noise for a name,
    which does not compress). *)
Definition bytes_of_str (s : pystr) : list Byte.byte := map byte_of_ascii s.
Definition str_of_bytes (b : list Byte.byte) : pystr := map ascii_of_byte b.

Fixpoint until_nul (b : list Byte.byte) : option (list Byte.byte * list Byte.byte) :=
  match b with
  | [] => None
  | Byte.x00 :: rest => Some ([], rest)
  | c :: rest =>
      match until_nul rest with
      | Some (field, rest') => Some (c :: field, rest')
      | None => None
      end
  end.

Definition plain_dumps (sc : script) : result (list Byte.byte) :=
  Ok (bytes_of_str (name sc) ++ [Byte.x00] ++ bytes_of_str (slug sc)
      ++ [Byte.x00] ++ bytes_of_str (description sc)).

Definition plain_loads (b : list Byte.byte) : result script :=
  match b with
  | [] => Raise EOFError
  | _ :: _ =>
      match until_nul b with
      | Some (n, rest) =>
          match until_nul rest with
          | Some (s, d) => Ok (Script (str_of_bytes n) (str_of_bytes s) (str_of_bytes d))
          | None => Raise UnpicklingError
          end
      | None => Raise UnpicklingError
      end
  end.

Definition plain_compress (b : list Byte.byte) : result (list Byte.byte) :=
  Ok (Byte.x78 :: Byte.xda :: b).

Definition plain_decompress (b : list Byte.byte) : result (list Byte.byte) :=
  match b with
  | Byte.x78 :: Byte.xda :: rest => Ok rest
  | _ => Raise zlib_error
  end.

Definition plain_codec : Codec :=
  {| pickle_dumps := plain_dumps;
     zlib_compress := plain_compress;
     zlib_decompress := plain_decompress;
     pickle_loads := plain_loads |}.

(** A cache that was never written, at time 0. *)
Definition empty_world : world := World ∅ 0 [].

(** A payload of one category with the given entries. *)
Definition one_category (entries : list pyjson) : pyjson :=
  JList [JDict [(str "name", JStr (str "Containers")); (str "scripts", JList entries)]].

(** The entry of the payload for a record. *)
Definition entry_of (n s d : pystr) : pyjson :=
  JDict [(str "name", JStr n); (str "slug", JStr s); (str "description", JStr d)].

(** The exchange in which the remote answers 200 with [data]. *)
Definition answers (data : pyjson) : http_outcome := Responded 200 (Decoded data).

(** [s] does not start with whitespace. *)
Definition no_lead (s : pystr) : Prop :=
  match s with [] => True | c :: _ => isspace c = false end.

(** The step of the fetcher on an acceptable record: it is dropped when its
    slug was seen, else appended and its slug recorded. *)
Definition accept_record (st : fetch_state) (r : script) : fetch_state :=
  if bool_decide (slug r ∈ st.1) then st
  else ({[ slug r ]} ∪ st.1, st.2 ++ [r]).

(** First occurrence wins: the records of [cands] whose slug is neither in
    [seen] nor the slug of an earlier record of [cands]. *)
Fixpoint first_by_slug (seen : gset (list ascii)) (cands : list script) : list script :=
  match cands with
  | [] => []
  | c :: rest =>
      if bool_decide (slug c ∈ seen) then first_by_slug seen rest
      else c :: first_by_slug ({[ slug c ]} ∪ seen) rest
  end.

(** The acceptable records of any payload: none when it is not a list. *)
Definition payload_candidates (data : pyjson) : list script :=
  match data with
  | JList l => candidates l
  | _ => []
  end.

(** ** Notions used by the statements on the cache *)

Section CacheNotions.
Context `{codec : Codec}.

(** The world after [CACHE.set(key, value, expire=expire)]. *)
Definition put (key : pystr) (value : cache_value) (expire : Z) (w : world) : world :=
  (CACHE_set key value expire w).2.

(** The world after the cache calls [ops] were recorded. *)
Definition traced (ops : list cache_op) (w : world) : world :=
  World (store w) (clock w) (trace w ++ ops).

(** [compressed] is what the write path computes for [sc]. *)
Definition encodes (sc : script) (compressed : list Byte.byte) : Prop :=
  ∃ serialized,
    pickle_dumps sc = Ok serialized ∧ zlib_compress serialized = Ok compressed.

(** At time [now] the entry of [slug0] in [m] is there, is not empty, and
    decompresses and deserializes to [sc]. *)
Definition readable (m : gmap (list ascii) cache_entry) (now : Z)
    (slug0 : pystr) (sc : script) : Prop :=
  ∃ compressed serialized,
    store_get (script_key slug0) now m = Some (VBytes compressed) ∧
    compressed ≠ [] ∧
    zlib_decompress compressed = Ok serialized ∧
    pickle_loads serialized = Ok sc.

(** The two exceptions the read loop handles. *)
Definition handled (e : exn) : Prop := e = zlib_error ∨ e = UnpicklingError.

(** At time [now] the entry of [slug0] in [m] is missing (never set,
    expired, or an empty value), or it is bytes whose decompression or
    deserialization raises one of the two handled exceptions. *)
Definition unusable (m : gmap (list ascii) cache_entry) (now : Z)
    (slug0 : pystr) : Prop :=
  truthy (store_get (script_key slug0) now m) = false ∨
  ∃ compressed,
    store_get (script_key slug0) now m = Some (VBytes compressed) ∧
    compressed ≠ [] ∧
    ((∃ e, zlib_decompress compressed = Raise e ∧ handled e) ∨
     (∃ serialized e, zlib_decompress compressed = Ok serialized ∧
                      pickle_loads serialized = Raise e ∧ handled e)).

(** Serializing and compressing [sc] raises nothing but a [PickleError] or
    a [zlib.error]. *)
Definition write_safe (sc : script) : Prop :=
  (∀ e, pickle_dumps sc = Raise e → caught e [PickleError; zlib_error] = true) ∧
  (∀ serialized e, pickle_dumps sc = Ok serialized →
                   zlib_compress serialized = Raise e →
                   caught e [PickleError; zlib_error] = true).

(** A record fit for the cache: it serializes and compresses to a non-empty
    value within the size cap, from which it is read back. *)
Definition cacheable (sc : script) : Prop :=
  ∃ serialized compressed,
    pickle_dumps sc = Ok serialized ∧
    zlib_compress serialized = Ok compressed ∧
    compressed ≠ [] ∧
    too_large compressed = false ∧
    zlib_decompress compressed = Ok serialized ∧
    pickle_loads serialized = Ok sc.

End CacheNotions.

(** The records of the index key: these slugs are the ones the loop of the
    cache write appends. *)
Definition indexed_slugs (scripts : list script) : list (list ascii) :=
  map slug (filter (λ sc, slug sc ≠ []) scripts).

(** ** Example records, payloads and caches *)

Definition docker_script : script :=
  Script (str "Docker") (str "docker") (str "Container runtime and tooling").

Definition portainer_script : script :=
  Script (str "Portainer") (str "portainer") (str "A lightweight docker management UI").

(** [n] characters of noise, between "!" and "~": the high bits of the
    linear congruential sequence [x := (1103515245 * x + 12345) mod 2^31]
    that starts after [x]. Such text does not compress below some 6.5 bits
    a character. *)
Fixpoint noise (n : nat) (x : Z) : list ascii :=
  match n with
  | O => []
  | S n' =>
      let x' := (1103515245 * x + 12345) mod 2147483648 in
      ascii_of_N (Z.to_N (33 + (x' / 65536) mod 94)) :: noise n' x'
  end.

(** A record that does not fit the cache: its name is 20000 characters of
    noise, and its compressed pickle is larger than the size cap (16707
    bytes with zlib at level 9, 20008 bytes with the codec below). *)
Definition huge_script : script :=
  Script (noise (Z.to_nat 20000) 1) (str "huge") [].

Definition entry_of_script (sc : script) : pyjson :=
  entry_of (name sc) (slug sc) (description sc).

Definition two_scripts_payload : pyjson :=
  one_category [entry_of_script docker_script; entry_of_script portainer_script].

Definition huge_payload : pyjson :=
  one_category [entry_of_script docker_script; entry_of_script huge_script].

(** A payload in which the first record comes again, unchanged, in a
    second category. *)
Definition repeating_payload : pyjson :=
  JList [JDict [(str "scripts",
                 JList [entry_of_script docker_script; entry_of_script portainer_script])];
         JDict [(str "scripts", JList [entry_of_script docker_script])]].

(** A catalogue with a record whose slug is "slugs_list": its key is the
    key of the index. *)
Definition colliding_script : script :=
  Script (str "Slugs") (str "slugs_list") [].

Definition colliding_payload : pyjson :=
  one_category [entry_of_script colliding_script].

(** The compressed value of a record under [plain_codec]. *)
Definition plain_value (sc : script) : cache_value :=
  VBytes (Byte.x78 :: Byte.xda :: bytes_of_str (name sc) ++ [Byte.x00]
          ++ bytes_of_str (slug sc) ++ [Byte.x00] ++ bytes_of_str (description sc)).

(** A cache whose index lists two slugs and that holds the entry of the
    first only. *)
Definition half_cache : world :=
  World (<[slugs_list_key := CacheEntry (VList [str "docker"; str "portainer"]) 43200]>
           (<[script_key (str "docker") := CacheEntry (plain_value docker_script) 43200]> ∅))
        0 [].

(** A description of 310 characters with its only space at position 295. *)
Definition spaced_description : list ascii :=
  repeat "a"%char 295 ++ [space] ++ repeat "b"%char 14.

(** A record that holds "portainer" and not "docker". *)
Definition management_script : script :=
  Script (str "Portainer") (str "portainer") (str "A management UI").

(** A payload with a malformed category, a malformed entry, a disabled
    record and a repeated slug around two good records. *)
Definition messy_payload : pyjson :=
  JList [JInt 7;
         JDict [(str "scripts",
                 JList [JStr (str "oops");
                        entry_of (str "  Docker ") (str "docker") (str "Container runtime and tooling");
                        JDict [(str "name", JStr (str "Off")); (str "slug", JStr (str "off"));
                               (str "disable", JBool true)]])];
         JDict [(str "scripts",
                 JList [entry_of (str "Docker again") (str " docker") (str "duplicate");
                        entry_of_script portainer_script])]].

(** Three records that score 15, 10 and 15 for the word "x". *)
Definition record_A : script := Script (str "xa") (str "a") (str "x one").
Definition record_B : script := Script (str "xb") (str "b") (str "two").
Definition record_C : script := Script (str "xc") (str "c") (str "x three").

(** The truncation as the specification words it: [content] is [d] cut at
    the last whitespace character before position 300, then the ellipsis. *)
Definition cut_at_last_whitespace (d content0 : pystr) : Prop :=
  ∃ i, (i < 300)%nat ∧
       (∃ c, d !! i = Some c ∧ isspace c = true) ∧
       (∀ j c, (i < j < 300)%nat → d !! j = Some c → isspace c = false) ∧
       content0 = take i d ++ str "...".

(** A description of 301 characters whose only whitespace is a tab at
    position 150. *)
Definition tabbed_description : list ascii :=
  repeat "a"%char 150 ++ ["009"%char] ++ repeat "a"%char 150.

(** ** Notions used by the further properties *)

(** An entry with a string name and a string slug that the fetcher drops all
    the same: name or slug blank after trimming, or ["disable": true]. *)
Definition disabled_or_blank (entry : pyjson) : bool :=
  match entry with
  | JDict items =>
      match dict_get (str "name") items, dict_get (str "slug") items with
      | Some (JStr n), Some (JStr s) =>
          bool_decide (strip n = []) || bool_decide (strip s = [])
          || is_True (dict_get (str "disable") items)
      | _, _ => false
      end
  | _ => false
  end.

(** An entry that is flagged as disabled. *)
Definition disabled_entry : pyjson :=
  JDict [(str "name", JStr (str "Off")); (str "slug", JStr (str "off"));
         (str "disable", JBool true)].

(** What a run may have done to the cache [w] to leave [w'], in this model
    of the cache: the clock is the same, and an entry that differs is under
    the key of some slug and expires one TTL after the time of the run. *)
Definition footprint (w w' : world) : Prop :=
  clock w' = clock w ∧
  ∀ key, store w' !! key = store w !! key ∨
         ∃ slug0 value,
           key = str "script_" ++ slug0 ∧
           store w' !! key = Some (CacheEntry value (clock w + _CACHE_TTL)).





(** [op] is the write of the entry of a record of [scripts] that is within
    the size cap. *)
Definition record_write `{codec : Codec} (scripts : list script) (op : cache_op) : Prop :=
  ∃ sc compressed,
    sc ∈ scripts ∧ encodes sc compressed ∧ too_large compressed = false ∧
    op = OpSet (script_key (slug sc)) (VBytes compressed) _CACHE_TTL.

(** * Properties *)

(** ** Strings *)

Lemma isspace_lower_char c : isspace (lower_char c) = isspace c.
Proof. by destruct c as [[] [] [] [] [] [] [] []]. Qed.

Lemma lower_nil_iff s : lower s = [] ↔ s = [].
Proof. by destruct s. Qed.

Lemma lower_app s t : lower (s ++ t) = lower s ++ lower t.
Proof. apply map_app. Qed.

Lemma split_from_lower cur s :
  split_from (lower cur) (lower s) = map lower (split_from cur s).
Proof.
  revert cur. induction s as [|c s IH]; intros cur; simpl.
  - by destruct cur.
  - rewrite isspace_lower_char. destruct (isspace c).
    + destruct cur; simpl; [apply (IH [])|f_equal; apply (IH [])].
    + specialize (IH (cur ++ [c])). by rewrite lower_app in IH.
Qed.

(** The tokens of the lower-cased query are the lower-cased tokens of the
    query. *)
Lemma split_lower query : split (lower query) = map lower (split query).
Proof. apply (split_from_lower []). Qed.

Lemma lstrip_all_space s : forallb isspace s = true → lstrip s = [].
Proof.
  induction s as [|c s IH]; simpl; [done|].
  intros [Hc Hs]%andb_prop. rewrite Hc. auto.
Qed.

Lemma strip_all_space s : forallb isspace s = true → strip s = [].
Proof. intros H. unfold strip. by rewrite (lstrip_all_space s H). Qed.

Lemma lstrip_no_lead s : no_lead (lstrip s).
Proof.
  induction s as [|c s IH]; simpl; [done|].
  destruct (isspace c) eqn:E; [done|]. by simpl.
Qed.

Lemma lstrip_fixed s : no_lead s → lstrip s = s.
Proof. destruct s as [|c s]; simpl; [done|]. by intros ->. Qed.

Lemma lstrip_suffix s : ∃ p, s = p ++ lstrip s.
Proof.
  induction s as [|c s [p IH]]; simpl.
  - by exists [].
  - destruct (isspace c).
    + exists (c :: p). simpl. by f_equal.
    + by exists [].
Qed.

Lemma no_lead_prefix (s t : pystr) : no_lead (s ++ t) → no_lead s.
Proof. by destruct s. Qed.

Lemma strip_no_lead s : no_lead (strip s).
Proof.
  unfold strip.
  destruct (lstrip_suffix (reverse (lstrip s))) as [p Hp].
  apply (f_equal reverse) in Hp. rewrite reverse_involutive, reverse_app in Hp.
  apply (no_lead_prefix _ (reverse p)). rewrite <- Hp. apply lstrip_no_lead.
Qed.

(** Trimming a trimmed string changes nothing. *)
Lemma strip_strip s : strip (strip s) = strip s.
Proof.
  unfold strip at 1.
  rewrite (lstrip_fixed (strip s)) by apply strip_no_lead.
  unfold strip. rewrite reverse_involutive.
  by rewrite (lstrip_fixed (lstrip _)) by apply lstrip_no_lead.
Qed.

Lemma before_last_space_none s :
  before_last_space s = None → space ∉ s.
Proof.
  induction s as [|c s IH]; simpl; [intros _; apply not_elem_of_nil|].
  destruct (before_last_space s); [done|].
  case_bool_decide; [done|]. intros _.
  apply not_elem_of_cons. split; [congruence|auto].
Qed.

Lemma before_last_space_no_space s :
  space ∉ s → before_last_space s = None.
Proof.
  induction s as [|c s IH]; simpl; [done|].
  intros [Hc Hs]%not_elem_of_cons. rewrite (IH Hs).
  case_bool_decide; congruence.
Qed.

Lemma before_last_space_app p rest :
  space ∉ rest → before_last_space (p ++ space :: rest) = Some p.
Proof.
  intros H. induction p as [|c p IH]; simpl.
  - by rewrite (before_last_space_no_space rest H).
  - by rewrite IH.
Qed.

(** ** The fetcher *)

Lemma fetch_script_normalize st entry :
  fetch_script st entry =
  match normalize_entry entry with
  | Some r => accept_record st r
  | None => st
  end.
Proof.
  destruct entry as [| | | | |l|items]; try done. simpl.
  destruct (dict_get (str "name") items) as [[]|]; try done.
  destruct (dict_get (str "slug") items) as [[]|]; try done.
  destruct (_ || _); [done|].
  destruct (is_True _); [done|]. done.
Qed.

Lemma fold_fetch_script entries st :
  fold_left fetch_script entries st =
  fold_left accept_record (omap normalize_entry entries) st.
Proof.
  revert st. induction entries as [|e entries IH]; intros st; simpl; [done|].
  rewrite IH, fetch_script_normalize.
  by destruct (normalize_entry e).
Qed.

Lemma fetch_category_entries st category :
  fetch_category st category =
  fold_left fetch_script (category_entries category) st.
Proof.
  destruct category as [| | | | |l|items]; try done. simpl.
  by destruct (category_scripts items).
Qed.

Lemma fold_fetch_category data st :
  fold_left fetch_category data st =
  fold_left accept_record (candidates data) st.
Proof.
  unfold candidates.
  revert st. induction data as [|c data IH]; intros st; simpl; [done|].
  rewrite IH, fetch_category_entries, fold_fetch_script.
  by rewrite omap_app, fold_left_app.
Qed.

Lemma fold_accept_record cands seen acc :
  (fold_left accept_record cands (seen, acc)).2 = acc ++ first_by_slug seen cands.
Proof.
  revert seen acc. induction cands as [|c cands IH]; intros seen acc; simpl.
  - by rewrite app_nil_r.
  - unfold accept_record at 2. simpl. case_bool_decide.
    + apply IH.
    + rewrite IH. by rewrite <- app_assoc.
Qed.

(** The fetch loop keeps the first record of every slug. *)
Lemma fetch_loop_first_by_slug data :
  fetch_loop data = first_by_slug ∅ (candidates data).
Proof.
  unfold fetch_loop. by rewrite fold_fetch_category, fold_accept_record.
Qed.

Lemma fetch_scripts_answers data :
  _fetch_scripts (answers data) =
  Ok (match data with JList l => fetch_loop l | _ => [] end).
Proof. by destruct data. Qed.

Lemma first_by_slug_sublist seen cands :
  sublist (first_by_slug seen cands) cands.
Proof.
  revert seen. induction cands as [|c cands IH]; intros seen; simpl; [done|].
  case_bool_decide.
  - by apply sublist_cons.
  - by apply sublist_skip.
Qed.

Lemma first_by_slug_unseen seen cands r :
  r ∈ first_by_slug seen cands → slug r ∉ seen.
Proof.
  revert seen. induction cands as [|c cands IH]; intros seen; simpl.
  - by intros ?%elem_of_nil.
  - case_bool_decide as Hc; [apply IH|].
    intros [->|Hr]%elem_of_cons; [done|].
    apply IH in Hr. set_solver.
Qed.

Lemma first_by_slug_NoDup seen cands :
  NoDup (map slug (first_by_slug seen cands)).
Proof.
  revert seen. induction cands as [|c cands IH]; intros seen; simpl.
  - constructor.
  - case_bool_decide as Hc; [apply IH|]. simpl.
    constructor; [|apply IH].
    intros (r & Hs & Hr)%(list_elem_of_fmap_1 slug).
    apply first_by_slug_unseen in Hr. set_solver.
Qed.

Lemma first_by_slug_covers seen cands c :
  c ∈ cands →
  slug c ∈ seen ∨ ∃ r, r ∈ first_by_slug seen cands ∧ slug r = slug c.
Proof.
  revert seen. induction cands as [|c' cands IH]; intros seen; simpl.
  - by intros ?%elem_of_nil.
  - intros [->|Hc]%elem_of_cons.
    + case_bool_decide; [by left|]. right. exists c'. split; [left|done].
    + case_bool_decide as Hc'.
      * apply IH, Hc.
      * destruct (IH ({[slug c']} ∪ seen) Hc) as [Hin|(r & Hr & Hs)].
        -- apply elem_of_union in Hin as [->%elem_of_singleton|Hin]; [|by left].
           right. exists c'. split; [left|done].
        -- right. exists r. split; [by right|done].
Qed.

Lemma first_by_slug_first seen cands r :
  r ∈ first_by_slug seen cands →
  ∃ i, cands !! i = Some r ∧
       ∀ j c, (j < i)%nat → cands !! j = Some c → slug c ≠ slug r.
Proof.
  revert seen. induction cands as [|c' cands IH]; intros seen; simpl.
  - by intros ?%elem_of_nil.
  - case_bool_decide as Hc'.
    + intros Hr. destruct (IH _ Hr) as (i & Hi & Hfirst).
      exists (S i). split; [done|].
      intros [|j] c Hj Hc; simpl in Hc.
      * injection Hc as <-. apply first_by_slug_unseen in Hr. congruence.
      * apply (Hfirst j); [lia|done].
    + intros [->|Hr]%elem_of_cons.
      * exists 0%nat. split; [done|]. intros j c Hj. lia.
      * destruct (IH _ Hr) as (i & Hi & Hfirst).
        exists (S i). split; [done|].
        intros [|j] c Hj Hc; simpl in Hc.
        -- injection Hc as <-. apply first_by_slug_unseen in Hr. set_solver.
        -- apply (Hfirst j); [lia|done].
Qed.

Lemma sublist_elem_of {A} (l k : list A) x : sublist l k → x ∈ l → x ∈ k.
Proof.
  induction 1 as [|y l k _ IH|y l k _ IH]; [done| |].
  - intros [->|?]%elem_of_cons; [left|right; auto].
  - intros ?. right. auto.
Qed.

(** What the normalization guarantees of a record it accepts. *)
Lemma normalize_entry_fields entry r :
  normalize_entry entry = Some r →
  name r ≠ [] ∧ strip (name r) = name r ∧
  slug r ≠ [] ∧ strip (slug r) = slug r ∧
  (length (description r) ≤ 500)%nat.
Proof.
  destruct entry as [| | | | |l|items]; try done. simpl.
  destruct (dict_get (str "name") items) as [[]|]; try done.
  destruct (dict_get (str "slug") items) as [[]|]; try done.
  do 2 case_bool_decide; simpl; try done.
  destruct (is_True _); [done|].
  intros [= <-]. simpl. rewrite !strip_strip. repeat split; try done.
  destruct (dict_get (str "description") items) as [[]|]; simpl; try lia.
  rewrite length_take. lia.
Qed.

Lemma candidates_fields data r :
  r ∈ candidates data →
  name r ≠ [] ∧ strip (name r) = name r ∧
  slug r ≠ [] ∧ strip (slug r) = slug r ∧
  (length (description r) ≤ 500)%nat.
Proof.
  unfold candidates. intros (e & _ & He)%list_elem_of_omap.
  by apply (normalize_entry_fields e).
Qed.





(** **** C6 *)


(** **** C7 *)

(** C7. In the snapshot of any payload every record has a non-empty,
    trimmed name and slug and a description of at most 500 characters; the
    slugs are pairwise distinct; the snapshot is a subsequence of the
    acceptable records in scanning order, it has a record for every slug
    among them, and each of its records is the first acceptable record with
    its slug. In all, the snapshot is the list of the acceptable records in
    scanning order from which every record whose slug occurred before is
    removed ([first_by_slug]). *)
Theorem C7_snapshot_normalized (data : pyjson) :
  ∃ snapshot,
    _fetch_scripts (answers data) = Ok snapshot ∧
    (∀ r, r ∈ snapshot →
       name r ≠ [] ∧ strip (name r) = name r ∧
       slug r ≠ [] ∧ strip (slug r) = slug r ∧
       (length (description r) ≤ 500)%nat) ∧
    NoDup (map slug snapshot) ∧
    sublist snapshot (payload_candidates data) ∧
    (∀ c, c ∈ payload_candidates data →
       ∃ r, r ∈ snapshot ∧ slug r = slug c) ∧
    (∀ r, r ∈ snapshot →
       ∃ i, payload_candidates data !! i = Some r ∧
            ∀ j c, (j < i)%nat → payload_candidates data !! j = Some c →
                   slug c ≠ slug r) ∧
    snapshot = first_by_slug ∅ (payload_candidates data).
Proof.
  rewrite fetch_scripts_answers. eexists. split; [done|].
  destruct data as [| | | | |l|items]; simpl;
    try (split; [by intros ? ?%elem_of_nil|]; split; [constructor|];
         split; [constructor|]; split; [by intros ? ?%elem_of_nil|];
         split; [by intros ? ?%elem_of_nil|done]).
  rewrite fetch_loop_first_by_slug.
  split.
  { intros r Hr. apply (candidates_fields l).
    eapply sublist_elem_of; [apply first_by_slug_sublist|done]. }
  split; [apply first_by_slug_NoDup|].
  split; [apply first_by_slug_sublist|].
  split.
  { intros c Hc. destruct (first_by_slug_covers ∅ _ c Hc) as [?|?]; [set_solver|done]. }
  split; [|done].
  intros r Hr. by apply (first_by_slug_first ∅).
Qed.

(** ** The scorer *)

Lemma score_loop_tokens sc tokens acc :
  score_loop (lower (name sc)) (lower (description sc)) (map lower tokens) acc =
  if forallb (token_found sc) tokens then acc + sum_points sc tokens else 0.
Proof.
  revert acc. induction tokens as [|t tokens IH]; intros acc; simpl.
  - lia.
  - unfold token_found at 1, token_points, token_in_name, token_in_description.
    destruct (str_in (lower t) (lower (name sc)));
      destruct (str_in (lower t) (lower (description sc))); simpl;
      try rewrite IH; try done;
      destruct (forallb (token_found sc) tokens); lia.
Qed.

Lemma token_points_bounds sc t :
  token_found sc t = true → 5 ≤ token_points sc t ≤ 15.
Proof.
  unfold token_found, token_points.
  destruct (token_in_name sc t), (token_in_description sc t); simpl; lia.
Qed.

Lemma sum_points_bounds sc tokens :
  forallb (token_found sc) tokens = true →
  5 * Z.of_nat (length tokens) ≤ sum_points sc tokens ≤ 15 * Z.of_nat (length tokens).
Proof.
  induction tokens as [|t tokens IH]; simpl; [lia|].
  intros [Ht Hts]%andb_prop.
  pose proof (token_points_bounds sc t Ht). specialize (IH Hts). lia.
Qed.

Lemma elem_of_scored_scripts scripts words s sc :
  (s, sc) ∈ scored_scripts scripts words ↔
  sc ∈ scripts ∧ s = _score_script sc words ∧ 0 < s.
Proof.
  induction scripts as [|sc' scripts IH]; simpl.
  - split; [by intros ?%elem_of_nil|by intros [?%elem_of_nil _]].
  - destruct (0 <? _score_script sc' words) eqn:E.
    + apply Z.ltb_lt in E. rewrite !elem_of_cons, IH. split.
      * intros [[= -> ->]|(? & ? & ?)]; auto.
      * intros [[->|?] [-> ?]]; auto.
    + apply Z.ltb_ge in E. rewrite elem_of_cons, IH. split.
      * intros (? & ? & ?); auto.
      * intros [[->|?] [-> ?]]; [lia|auto].
Qed.

Lemma insert_desc_perm x l : insert_desc x l ≡ₚ x :: l.
Proof.
  induction l as [|y l IH]; simpl; [done|].
  destruct (x.1 <? y.1); [|done].
  rewrite IH. apply Permutation_swap.
Qed.

Lemma sort_desc_perm l : sort_desc l ≡ₚ l.
Proof.
  induction l as [|x l IH]; simpl; [done|].
  by rewrite insert_desc_perm, IH.
Qed.

Lemma insert_desc_sorted x l : by_score_desc l → by_score_desc (insert_desc x l).
Proof.
  unfold by_score_desc.
  induction 1 as [|y l Hl IH Hy]; simpl.
  - repeat constructor.
  - destruct (x.1 <? y.1) eqn:E.
    + apply Z.ltb_lt in E. constructor; [done|].
      rewrite insert_desc_perm. constructor; [lia|done].
    + apply Z.ltb_ge in E. constructor; [by constructor|].
      constructor; [done|].
      eapply Forall_impl; [exact Hy|]. simpl. intros; lia.
Qed.

Lemma sort_desc_sorted l : by_score_desc (sort_desc l).
Proof.
  induction l as [|x l IH]; simpl; [constructor|].
  by apply insert_desc_sorted.
Qed.

Lemma with_score_insert_desc s x l :
  with_score s (insert_desc x l) = with_score s (x :: l).
Proof.
  unfold with_score.
  induction l as [|y l IH]; simpl; [done|].
  destruct (x.1 <? y.1) eqn:E; [|done].
  apply Z.ltb_lt in E.
  rewrite (filter_cons _ y), IH, !(filter_cons _ x), (filter_cons _ y).
  repeat case_decide; try done; lia.
Qed.

Lemma with_score_sort_desc s l : with_score s (sort_desc l) = with_score s l.
Proof.
  induction l as [|x l IH]; simpl; [done|].
  rewrite with_score_insert_desc. unfold with_score in *.
  by rewrite !(filter_cons _ x), IH.
Qed.

Lemma elem_of_rank scripts words s sc :
  (s, sc) ∈ rank scripts words →
  sc ∈ scripts ∧ s = _score_script sc words ∧ 0 < s.
Proof.
  unfold rank. intros H.
  apply (sublist_elem_of _ _ _ (sublist_take _ _)) in H.
  rewrite sort_desc_perm in H. by apply elem_of_scored_scripts.
Qed.

(** **** C4 *)

(** C4. For every record and every token list, the score of the
    lower-cased tokens is the sum over the tokens of 10 for a lower-cased
    token that occurs in the lower-cased name plus 5 for one that occurs in
    the lower-cased description, when every token occurs in one of the two,
    and 0 when some token occurs in neither; in the second case the record
    is in no ranking. The words [search] scores a query with are the
    lower-cased tokens of the query. *)
Theorem C4_score_conjunctive (sc : script) (tokens : list pystr) :
  _score_script sc (map lower tokens) =
    (if forallb (token_found sc) tokens then sum_points sc tokens else 0) ∧
  (forallb (token_found sc) tokens = false →
     _score_script sc (map lower tokens) = 0 ∧
     ∀ scripts s, (s, sc) ∉ rank scripts (map lower tokens)) ∧
  (∀ query, tokens = split query → split (lower query) = map lower tokens).
Proof.
  assert (_score_script sc (map lower tokens) =
    if forallb (token_found sc) tokens then sum_points sc tokens else 0) as Hs.
  { unfold _score_script. rewrite score_loop_tokens.
    by destruct (forallb _ _). }
  split; [done|]. split.
  - intros Hnot. rewrite Hnot in Hs. split; [done|].
    intros scripts s (_ & -> & Hpos)%elem_of_rank. lia.
  - intros query ->. apply split_lower.
Qed.

(** **** C10 *)

(** C10. For every query with k tokens, a record in the ranking has a score
    between 5 k and 15 k: its score is the sum of the contributions of the
    tokens, and each token contributes at least 5 and at most 15. *)
Theorem C10_score_bounds (scripts : list script) (query : pystr) (s : Z) (sc : script) :
  (s, sc) ∈ rank scripts (split (lower query)) →
  let tokens := split query in
  let k := Z.of_nat (length (split (lower query))) in
  s = sum_points sc tokens ∧
  (∀ t, t ∈ tokens → 5 ≤ token_points sc t ≤ 15) ∧
  5 * k ≤ s ≤ 15 * k.
Proof.
  intros (_ & Hs & Hpos)%elem_of_rank tokens k.
  unfold k, tokens. clear k tokens.
  rewrite split_lower in *. rewrite length_map.
  unfold _score_script in Hs. rewrite score_loop_tokens in Hs.
  destruct (forallb (token_found sc) (split query)) eqn:Hall; [|lia].
  split; [lia|]. split.
  - intros t Ht. apply token_points_bounds.
    rewrite forallb_forall in Hall. by apply Hall, list_elem_of_In.
  - rewrite Hs. simpl. by apply sum_points_bounds.
Qed.

Lemma scored_scripts_sublist scripts words :
  sublist (map snd (scored_scripts scripts words)) scripts.
Proof.
  induction scripts as [|sc scripts IH]; simpl; [done|].
  destruct (0 <? _score_script sc words); simpl.
  - by apply sublist_skip.
  - by apply sublist_cons.
Qed.

(** **** C5 *)

(** C5. For every record list and every token list, the ranking is the
    first 20 elements of an ordering of the scored records that is sorted by
    descending score and keeps, for every score, the records of that score
    in the order of the scored list, which is the input order; so the
    ranking is sorted by descending score and has at most 20 elements. *)
Theorem C5_ranking_stable_top20 (scripts : list script) (words : list pystr) :
  let scored := scored_scripts scripts words in
  ∃ ordered,
    rank scripts words = take 20 ordered ∧
    ordered ≡ₚ scored ∧
    by_score_desc ordered ∧
    (∀ s, with_score s ordered = with_score s scored) ∧
    sublist (map snd scored) scripts ∧
    by_score_desc (rank scripts words) ∧
    (length (rank scripts words) ≤ 20)%nat.
Proof.
  intros scored. exists (sort_desc scored).
  split; [done|]. split; [apply sort_desc_perm|].
  split; [apply sort_desc_sorted|].
  split; [intros s; apply with_score_sort_desc|].
  split; [apply scored_scripts_sublist|].
  split.
  - unfold rank, by_score_desc.
    apply (StronglySorted_app_1_l _ _ (drop _MAX_RESULTS (sort_desc scored))).
    rewrite take_drop. apply sort_desc_sorted.
  - unfold rank, _MAX_RESULTS. rewrite length_take. lia.
Qed.

(** **** C8 *)

Lemma result_content_long d :
  (300 < length d)%nat →
  result_content d = rsplit_space_head (take 300 d) ++ str "...".
Proof.
  intros H. unfold result_content.
  destruct (300 <? Z.of_nat (length d)) eqn:E; [done|].
  apply Z.ltb_ge in E. lia.
Qed.

(** C8 (amended). The content of a result is the description of its record
    when that has at most 300 characters. When it has more, the content is
    the description cut at the last space character (U+0020) among its
    first 300 characters, followed by "..."; when these 300 characters hold
    no space, it is all 300 of them followed by "...". *)
Theorem C8_content_truncation (d : pystr) :
  ((length d ≤ 300)%nat → result_content d = d) ∧
  ((300 < length d)%nat →
     ∀ i, (i < 300)%nat → d !! i = Some space →
          (∀ j, (i < j < 300)%nat → d !! j ≠ Some space) →
          result_content d = take i d ++ str "...") ∧
  ((300 < length d)%nat →
     (∀ j, (j < 300)%nat → d !! j ≠ Some space) →
     result_content d = take 300 d ++ str "...") ∧
  (∀ sc, description sc = d → content (main_result sc) = result_content d).
Proof.
  split.
  { intros H. unfold result_content.
    destruct (300 <? Z.of_nat (length d)) eqn:E; [|done].
    apply Z.ltb_lt in E. lia. }
  split.
  { intros Hlen i Hi Hsp Hlast. rewrite result_content_long by done.
    f_equal. unfold rsplit_space_head.
    assert (take 300 d !! i = Some space) as Hi' by by rewrite lookup_take_lt.
    rewrite <- (take_drop_middle _ _ _ Hi').
    rewrite before_last_space_app.
    - rewrite take_take. by replace (i `min` 300)%nat with i by lia.
    - intros (k & Hk)%list_elem_of_lookup_1.
      rewrite lookup_drop in Hk. apply lookup_take_Some in Hk as [Hk Hlt].
      apply (Hlast (S i + k)%nat); [lia|done]. }
  split.
  { intros Hlen Hnone. rewrite result_content_long by done.
    f_equal. unfold rsplit_space_head.
    rewrite before_last_space_no_space; [done|].
    intros (k & Hk)%list_elem_of_lookup_1.
    apply lookup_take_Some in Hk as [Hk Hlt]. by apply (Hnone k). }
  by intros sc <-.
Qed.

(** C8 as stated fails: the description [tabbed_description] is longer than
    300 characters, and its content is not the description cut at its last
    whitespace character before position 300 (nor at any whitespace
    character): the tab is not a place where [rsplit(" ", 1)] cuts. *)
Lemma C8_counterexample :
  (300 < length tabbed_description)%nat ∧
  tabbed_description !! 150%nat = Some "009"%char ∧
  isspace "009"%char = true ∧
  result_content tabbed_description = take 300 tabbed_description ++ str "..." ∧
  ¬ cut_at_last_whitespace tabbed_description (result_content tabbed_description).
Proof.
  split; [vm_compute; lia|].
  split; [done|]. split; [done|].
  assert (result_content tabbed_description
          = take 300 tabbed_description ++ str "...") as Hc by by vm_compute.
  split; [done|].
  intros (i & Hi & _ & _ & Heq).
  apply (f_equal length) in Heq. rewrite Hc, !length_app, !length_take in Heq.
  change (length tabbed_description) with 301%nat in Heq.
  change (length (str "...")) with 3%nat in Heq. lia.
Qed.

(** ** The cache write *)

Section CacheProperties.
Context `{codec : Codec}.

Lemma script_key_inj s s' : script_key s = script_key s' → s = s'.
Proof. unfold script_key. apply app_inv_head. Qed.

Lemma script_key_index s : script_key s = slugs_list_key → s = str "slugs_list".
Proof. intros H. by apply script_key_inj. Qed.

Lemma traced_traced ops1 ops2 w :
  traced ops2 (traced ops1 w) = traced (ops1 ++ ops2) w.
Proof. unfold traced. simpl. by rewrite app_assoc. Qed.

Lemma cache_loop_cons sc rest slugs w serialized compressed :
  pickle_dumps sc = Ok serialized →
  zlib_compress serialized = Ok compressed →
  cache_loop (sc :: rest) slugs w =
  match slug sc with
  | [] => cache_loop rest slugs w
  | _ :: _ =>
      if too_large compressed then cache_loop rest (slugs ++ [slug sc]) w
      else cache_loop rest (slugs ++ [slug sc])
             (put (script_key (slug sc)) (VBytes compressed) _CACHE_TTL w)
  end.
Proof.
  intros Hd Hc. simpl. destruct (slug sc); [done|].
  unfold bind, lift. rewrite Hd, Hc.
  by destruct (too_large compressed).
Qed.

(** The loop appends the slug of every record that has one, whatever the
    size of its compressed value. *)
Lemma cache_loop_slugs scripts slugs w :
  Forall (λ sc, ∃ compressed, encodes sc compressed) scripts →
  (cache_loop scripts slugs w).1 = Ok (slugs ++ indexed_slugs scripts).
Proof.
  intros Hall. revert slugs w.
  induction Hall as [|sc scripts (c & b & Hd & Hc) _ IH]; intros slugs w.
  - simpl. by rewrite app_nil_r.
  - rewrite (cache_loop_cons _ _ _ _ _ _ Hd Hc).
    unfold indexed_slugs. rewrite filter_cons.
    destruct (slug sc) as [|a s] eqn:Hs.
    + rewrite decide_False by (by intros []). apply IH.
    + rewrite decide_True by done. simpl. rewrite Hs.
      destruct (too_large c); rewrite IH, <- app_assoc; done.
Qed.

Lemma cache_loop_clock scripts slugs w :
  clock (cache_loop scripts slugs w).2 = clock w.
Proof.
  revert slugs w. induction scripts as [|sc scripts IH]; intros slugs w; [done|].
  simpl. destruct (slug sc); [apply IH|].
  unfold bind, lift. destruct (pickle_dumps sc) as [b|e]; [|done].
  destruct (zlib_compress b) as [c|e]; [|done].
  destruct (too_large c); [apply IH|].
  simpl. by rewrite IH.
Qed.

Lemma cache_loop_store_other scripts slugs w key :
  key ∉ map (λ sc, script_key (slug sc)) scripts →
  store (cache_loop scripts slugs w).2 !! key = store w !! key.
Proof.
  revert slugs w. induction scripts as [|sc scripts IH]; intros slugs w; [done|].
  simpl. intros [Hkey Hrest]%not_elem_of_cons.
  destruct (slug sc); [by apply IH|].
  unfold bind, lift. destruct (pickle_dumps sc) as [b|e]; [|done].
  destruct (zlib_compress b) as [c|e]; [|done].
  destruct (too_large c); [by apply IH|].
  simpl. rewrite IH by done. simpl. by rewrite lookup_insert_ne.
Qed.

Lemma key_not_in_rest sc scripts :
  slug sc ∉ map slug scripts →
  script_key (slug sc) ∉ map (λ sc', script_key (slug sc')) scripts.
Proof.
  intros Hnot (sc' & Hk & Hin)%list_elem_of_fmap_1.
  apply script_key_inj in Hk. apply Hnot. rewrite Hk.
  by apply (list_elem_of_fmap_2 slug).
Qed.

(** A record within the cap is stored under its key, to expire one TTL
    after the write. *)
Lemma cache_loop_store_written scripts slugs w sc compressed :
  NoDup (map slug scripts) →
  Forall (λ sc, ∃ compressed, encodes sc compressed) scripts →
  sc ∈ scripts → slug sc ≠ [] →
  encodes sc compressed → too_large compressed = false →
  store (cache_loop scripts slugs w).2 !! script_key (slug sc)
  = Some (CacheEntry (VBytes compressed) (clock w + _CACHE_TTL)).
Proof.
  intros Hnd Hall. revert slugs w.
  induction Hall as [|sc' scripts (c' & b' & Hd' & Hc') _ IH]; intros slugs w.
  - by intros ?%elem_of_nil.
  - simpl in Hnd. apply NoDup_cons in Hnd as [Hfresh Hnd].
    intros [->|Hin]%elem_of_cons Hslug (b & Hd & Hc) Hfit;
      rewrite (cache_loop_cons _ _ _ _ _ _ Hd' Hc').
    + assert (b' = b) as -> by congruence.
      assert (c' = compressed) as -> by congruence.
      destruct (slug sc') eqn:Hs; [done|]. rewrite Hfit.
      rewrite <- Hs in Hfresh |- *.
      rewrite cache_loop_store_other by by apply key_not_in_rest.
      unfold put. simpl. by rewrite lookup_insert_eq.
    + destruct (slug sc'); [by apply IH; try exists b|].
      destruct (too_large c'); [by apply IH; try exists b|].
      rewrite IH; try done; by exists b.
Qed.

(** A record over the cap, or without a slug, leaves the entry of its key
    as it was. *)
Lemma cache_loop_store_skipped scripts slugs w sc compressed :
  NoDup (map slug scripts) →
  Forall (λ sc, ∃ compressed, encodes sc compressed) scripts →
  sc ∈ scripts →
  encodes sc compressed → too_large compressed = true →
  store (cache_loop scripts slugs w).2 !! script_key (slug sc)
  = store w !! script_key (slug sc).
Proof.
  intros Hnd Hall. revert slugs w.
  induction Hall as [|sc' scripts (c' & b' & Hd' & Hc') _ IH]; intros slugs w.
  - by intros ?%elem_of_nil.
  - simpl in Hnd. apply NoDup_cons in Hnd as [Hfresh Hnd].
    intros [->|Hin]%elem_of_cons (b & Hd & Hc) Hbig;
      rewrite (cache_loop_cons _ _ _ _ _ _ Hd' Hc').
    + assert (b' = b) as -> by congruence.
      assert (c' = compressed) as -> by congruence.
      rewrite Hbig.
      destruct (slug sc') eqn:Hs; rewrite <- Hs in Hfresh |- *;
        by rewrite cache_loop_store_other by by apply key_not_in_rest.
    + assert (slug sc ≠ slug sc') as Hne.
      { intros Heq. apply Hfresh. rewrite <- Heq.
        by apply (list_elem_of_fmap_2 slug). }
      destruct (slug sc') eqn:Hs; [by apply IH; try exists b|].
      destruct (too_large c'); [by apply IH; try exists b|].
      rewrite IH; try done; [|by exists b].
      unfold put. simpl. rewrite lookup_insert_ne; [done|].
      intros Hk%script_key_inj. congruence.
Qed.

End CacheProperties.

(** ** The cache read and the loader *)

Section LoaderProperties.
Context `{codec : Codec}.

Lemma read_loop_readable_cons slug0 rest temp w sc :
  readable (store w) (clock w) slug0 sc →
  read_loop (slug0 :: rest) temp w =
  read_loop rest (temp ++ [sc]) (traced [OpGet (script_key slug0)] w).
Proof.
  intros (c & b & Hget & Hne & Hd & Hl). simpl.
  unfold bind at 1, CACHE_get at 1. rewrite Hget.
  destruct c as [|c0 c]; [done|]. simpl.
  unfold bind, try_except, lift, ret. simpl. by rewrite Hd, Hl.
Qed.

Lemma read_loop_readable slugs scripts temp w :
  Forall2 (readable (store w) (clock w)) slugs scripts →
  read_loop slugs temp w =
  (Ok (true, temp ++ scripts), traced (map (λ s, OpGet (script_key s)) slugs) w).
Proof.
  intros Hall. revert scripts temp w Hall.
  induction slugs as [|s slugs IH]; intros scripts temp w Hall.
  - apply Forall2_nil_inv_l in Hall as ->. rewrite app_nil_r.
    unfold traced. simpl. rewrite app_nil_r. by destruct w.
  - apply Forall2_cons_inv_l in Hall as (sc & rest & Hsc & Hrest & ->).
    rewrite (read_loop_readable_cons _ _ _ _ _ Hsc).
    rewrite (IH rest) by done.
    by rewrite traced_traced, <- app_assoc.
Qed.

Lemma handled_caught e : handled e → caught e [zlib_error; UnpicklingError] = true.
Proof. by intros [-> | ->]. Qed.

Lemma read_loop_unusable_cons slug0 rest temp w :
  unusable (store w) (clock w) slug0 →
  read_loop (slug0 :: rest) temp w =
  (Ok (false, temp), traced [OpGet (script_key slug0)] w).
Proof.
  intros [Hfalse|(c & Hget & Hne & Hfail)]; simpl;
    unfold bind at 1, CACHE_get at 1.
  - by rewrite Hfalse.
  - rewrite Hget. destruct c as [|c0 c]; [done|]. simpl.
    unfold bind, try_except, lift, ret. simpl.
    by destruct Hfail as [(e & -> & [-> | ->])|(b & e & -> & -> & [-> | ->])].
Qed.

(** The read loop stops at the first unusable entry: it reads the entries
    before it and this one, and no other. *)
Lemma read_loop_abort before bad after read temp w :
  Forall2 (readable (store w) (clock w)) before read →
  unusable (store w) (clock w) bad →
  read_loop (before ++ bad :: after) temp w =
  (Ok (false, temp ++ read),
   traced (map (λ s, OpGet (script_key s)) (before ++ [bad])) w).
Proof.
  revert read temp w.
  induction before as [|s before IH]; intros read temp w Hall Hbad.
  - apply Forall2_nil_inv_l in Hall as ->. rewrite app_nil_r. simpl.
    by apply read_loop_unusable_cons.
  - apply Forall2_cons_inv_l in Hall as (sc & rest & Hsc & Hrest & ->).
    simpl app. rewrite (read_loop_readable_cons _ _ _ _ _ Hsc).
    rewrite (IH rest) by done.
    by rewrite traced_traced, <- app_assoc.
Qed.

Lemma cache_loop_safe scripts slugs w :
  Forall write_safe scripts →
  match (cache_loop scripts slugs w).1 with
  | Ok _ => True
  | Raise e => caught e [PickleError; zlib_error] = true
  end.
Proof.
  intros Hall. revert slugs w.
  induction Hall as [|sc scripts [Hd Hc] _ IH]; intros slugs w; [done|].
  simpl. destruct (slug sc); [apply IH|].
  unfold bind, lift.
  destruct (pickle_dumps sc) as [b|e] eqn:Eb; [|by apply Hd].
  destruct (zlib_compress b) as [c|e] eqn:Ec; [|by apply (Hc b)].
  destruct (too_large c); [apply IH|]. simpl. apply IH.
Qed.

(** The refetch returns what the fetcher returned, whether or not the
    cache write went through. *)
Lemma refetch_scripts_result net fetched w :
  _fetch_scripts net = Ok fetched →
  Forall write_safe fetched →
  (refetch_scripts net w).1 = Ok fetched.
Proof.
  intros Hf Hsafe. unfold refetch_scripts, bind at 1, lift. rewrite Hf.
  destruct fetched as [|sc rest]; [done|].
  unfold bind, try_except, cache_scripts, bind.
  pose proof (cache_loop_safe (sc :: rest) [] w Hsafe) as H.
  destruct (cache_loop (sc :: rest) [] w) as [[slugs|e] w1]; simpl in *.
  - done.
  - by rewrite H.
Qed.

Lemma cache_scripts_run scripts w :
  Forall (λ sc, ∃ compressed, encodes sc compressed) scripts →
  cache_scripts scripts w =
  (Ok tt, put slugs_list_key (VList (indexed_slugs scripts)) _CACHE_TTL
            (cache_loop scripts [] w).2).
Proof.
  intros Hall. unfold cache_scripts, bind.
  pose proof (cache_loop_slugs scripts [] w Hall) as H.
  destruct (cache_loop scripts [] w) as [r w1]. simpl in *. by rewrite H.
Qed.

Lemma indexed_slugs_all scripts :
  Forall (λ sc, slug sc ≠ []) scripts → indexed_slugs scripts = map slug scripts.
Proof.
  unfold indexed_slugs. induction 1 as [|sc scripts Hs _ IH]; [done|].
  rewrite filter_cons, decide_True by done. simpl. by rewrite IH.
Qed.

Lemma Forall2_readable_slugs m now scripts :
  Forall (λ sc, readable m now (slug sc) sc) scripts →
  Forall2 (readable m now) (map slug scripts) scripts.
Proof. induction 1; simpl; by constructor. Qed.

Lemma blank_whitespace query : forallb isspace query = true → blank query = true.
Proof.
  intros H. unfold blank. destruct query; [done|].
  by rewrite strip_all_space.
Qed.

End LoaderProperties.

(** ** The loader: write, read back, abort and refetch *)

Section LoaderTheorems.
Context `{codec : Codec}.

(** C3 (amended). For every snapshot (pairwise distinct, non-empty slugs)
    in which no slug is "slugs_list" and every record is cacheable (it
    serializes and compresses to a non-empty value of at most 10240 bytes
    from which it is read back), writing the snapshot to the cache and
    reading the cache before the TTL has passed returns the snapshot, in
    its order. *)
Theorem C3_round_trip (scripts : list script) (w : world) (t : Z) :
  NoDup (map slug scripts) →
  Forall (λ sc, slug sc ≠ [] ∧ slug sc ≠ str "slugs_list") scripts →
  Forall cacheable scripts →
  clock w ≤ t < clock w + _CACHE_TTL →
  (cache_scripts scripts w).1 = Ok tt ∧
  (read_cached_scripts (at_time t (cache_scripts scripts w).2)).1 = Ok scripts.
Proof.
  intros Hnd Hslugs Hfit Ht.
  assert (Forall (λ sc, ∃ compressed, encodes sc compressed) scripts) as Henc.
  { eapply Forall_impl; [exact Hfit|].
    intros sc (b & c & Hd & Hc & _). exists c, b. done. }
  rewrite (cache_scripts_run scripts w Henc). split; [done|].
  rewrite indexed_slugs_all
    by (eapply Forall_impl; [exact Hslugs|]; by intros ? [? _]).
  set (w1 := (cache_loop scripts [] w).2).
  simpl snd.
  set (w2 := at_time t (put slugs_list_key (VList (map slug scripts)) _CACHE_TTL w1)).
  assert (clock w1 = clock w) as Hclock by apply cache_loop_clock.
  assert (store_get slugs_list_key (clock w2) (store w2)
          = Some (VList (map slug scripts))) as Hindex.
  { unfold store_get, w2, put. simpl. rewrite lookup_insert_eq. simpl.
    rewrite Hclock. destruct (t <? clock w + _CACHE_TTL) eqn:E; [done|].
    apply Z.ltb_ge in E. lia. }
  assert (Forall2 (readable (store w2) (clock w2)) (map slug scripts) scripts)
    as Hread.
  { apply Forall2_readable_slugs. apply Forall_forall. intros sc Hin.
    pose proof (proj1 (Forall_forall _ _) Hfit sc Hin)
      as (b & c & Hd & Hc & Hne & Hcap & Hdec & Hload).
    pose proof (proj1 (Forall_forall _ _) Hslugs sc Hin) as [Hs Hidx].
    exists c, b. split; [|done].
    unfold store_get, w2, put. simpl.
    rewrite lookup_insert_ne
      by (intros Hk; symmetry in Hk; by apply script_key_index in Hk).
    unfold w1.
    rewrite (cache_loop_store_written scripts [] w sc c); try done;
      [|by exists b].
    simpl. destruct (t <? clock w + _CACHE_TTL) eqn:E; [done|].
    apply Z.ltb_ge in E. lia. }
  unfold read_cached_scripts, bind at 1, CACHE_get at 1.
  fold w2. rewrite Hindex.
  destruct scripts as [|sc rest]; [done|].
  change (World (store w2) (clock w2) (trace w2 ++ [OpGet slugs_list_key]))
    with (traced [OpGet slugs_list_key] w2).
  cbn [map] in Hread |- *. unfold bind.
  by rewrite (read_loop_readable _ _ [] (traced _ w2) Hread).
Qed.

(** X18. When the index is a non-empty slug list and the first of its
    slugs whose entry cannot be read is missing (never set, expired or
    empty) or holds bytes whose decompression raises [zlib.error] or whose
    deserialization raises [pickle.UnpicklingError], the read loop stops at
    that slug: the read path looks up the index, the slugs before it and
    this one, and ends with no records. The loader then returns exactly
    what the fetcher returns (the empty list if that is empty), and
    [search] ranks those records. The cache write of the refetch is
    assumed to raise nothing but a [PickleError] or a [zlib.error]. *)
Theorem read_abort_and_refetch (w : world) (net : http_outcome)
    (before after : list pystr) (bad : pystr) (read fetched : list script)
    (query : pystr) :
  store_get slugs_list_key (clock w) (store w)
    = Some (VList (before ++ bad :: after)) →
  Forall2 (readable (store w) (clock w)) before read →
  unusable (store w) (clock w) bad →
  _fetch_scripts net = Ok fetched →
  Forall write_safe fetched →
  blank query = false →
  read_cached_scripts w =
    (Ok [], traced (OpGet slugs_list_key
                    :: map (λ s, OpGet (script_key s)) (before ++ [bad])) w) ∧
  (load_scripts net w).1 = Ok fetched ∧
  (search query net w).1 =
    Ok (match fetched with
        | [] => []
        | _ :: _ => results_of (rank fetched (split (lower query)))
        end).
Proof.
  intros Hindex Hread Hbad Hfetch Hsafe Hquery.
  assert (read_cached_scripts w =
    (Ok [], traced (OpGet slugs_list_key
                    :: map (λ s, OpGet (script_key s)) (before ++ [bad])) w))
    as Hrc.
  { unfold read_cached_scripts, bind at 1, CACHE_get at 1. rewrite Hindex.
    destruct (before ++ bad :: after) as [|s0 rest] eqn:Hl;
      [by destruct before|].
    rewrite <- Hl. unfold bind.
    change (World (store w) (clock w) (trace w ++ [OpGet slugs_list_key]))
      with (traced [OpGet slugs_list_key] w).
    rewrite (read_loop_abort before bad after read [] (traced _ w)); [|done..].
    cbn [fst snd]. by rewrite traced_traced. }
  assert ((load_scripts net w).1 = Ok fetched) as Hload.
  { unfold load_scripts, bind. rewrite Hrc.
    by apply refetch_scripts_result. }
  split; [done|]. split; [done|].
  unfold search. rewrite Hquery. unfold bind.
  destruct (load_scripts net w) as [r w']. simpl in Hload. subst r.
  by destruct fetched.
Qed.

(** C9. For every query that is empty or made of whitespace only, [search]
    returns no result and leaves the world as it was: no entry is written,
    and no call to the cache, read or write, is recorded. *)
Theorem C9_blank_query_untouched (query : pystr) (net : http_outcome) (w : world) :
  forallb isspace query = true →
  search query net w = (Ok [], w).
Proof.
  intros H. unfold search. by rewrite (blank_whitespace query H).
Qed.

End LoaderTheorems.

(** ** Two defects of the cache write *)

Section CacheDefects.
Context `{codec : Codec}.

(** C1, the code at its failing inputs. For every codec and every list of
    records with distinct slugs, a record whose compressed value is over the
    cap has its slug in the index that the cache write stores, although the
    write leaves the entry under the key of that slug as it was (absent, on
    a cache that did not hold it): [new_slugs.append(slug)] precedes the
    size check. The index is not the list of the slugs written. *)
Theorem C1_index_lists_oversized_slug (scripts : list script) (w : world)
    (sc : script) (compressed : list Byte.byte) :
  NoDup (map slug scripts) →
  Forall (λ sc, ∃ compressed, encodes sc compressed) scripts →
  sc ∈ scripts →
  slug sc ≠ [] → slug sc ≠ str "slugs_list" →
  encodes sc compressed → too_large compressed = true →
  let w' := (cache_scripts scripts w).2 in
  (∃ slugs e,
     store w' !! slugs_list_key = Some e ∧ entry_value e = VList slugs ∧
     slug sc ∈ slugs) ∧
  store w' !! script_key (slug sc) = store w !! script_key (slug sc).
Proof.
  intros Hnd Henc Hin Hslug Hidx Hsc Hbig.
  rewrite (cache_scripts_run scripts w Henc). cbn [snd]. split.
  - exists (indexed_slugs scripts). eexists. unfold put. simpl.
    rewrite lookup_insert_eq. split; [done|]. split; [done|].
    unfold indexed_slugs. apply (list_elem_of_fmap_2 slug).
    by apply list_elem_of_filter.
  - unfold put. simpl.
    rewrite lookup_insert_ne
      by (intros Hk; symmetry in Hk; by apply script_key_index in Hk).
    by apply (cache_loop_store_skipped scripts [] w sc compressed).
Qed.

Lemma read_loop_collision slug0 index before after read temp w :
  store_get slugs_list_key (clock w) (store w) = Some (VList (slug0 :: index)) →
  Forall2 (readable (store w) (clock w)) before read →
  (read_loop (before ++ str "slugs_list" :: after) temp w).1 = Raise TypeError.
Proof.
  revert read temp w.
  induction before as [|s before IH]; intros read temp w Hidx Hread.
  - simpl app. simpl. unfold bind at 1, CACHE_get at 1.
    change (script_key (str "slugs_list")) with slugs_list_key.
    by rewrite Hidx.
  - apply Forall2_cons_inv_l in Hread as (sc & rest & Hsc & Hrest & ->).
    simpl app. rewrite (read_loop_readable_cons _ _ _ _ _ Hsc).
    by apply (IH rest).
Qed.

(** C2, the code at its failing inputs. The key of the slug "slugs_list" is
    the key of the index. For every codec, whenever the index is a list
    that names this slug and the entries of the slugs before it are
    readable, the entry read for it is the index itself, a non-empty list:
    [zlib.decompress] raises [TypeError], which the [except] clause of the
    read loop does not name, and the read path, the loader and [search]
    raise it. Nothing is refetched. *)
Theorem C2_index_collision_raises (w : world) (net : http_outcome)
    (before after : list pystr) (read : list script) (query : pystr) :
  store_get slugs_list_key (clock w) (store w)
    = Some (VList (before ++ str "slugs_list" :: after)) →
  Forall2 (readable (store w) (clock w)) before read →
  blank query = false →
  (read_cached_scripts w).1 = Raise TypeError ∧
  (load_scripts net w).1 = Raise TypeError ∧
  (search query net w).1 = Raise TypeError.
Proof.
  intros Hidx Hread Hquery.
  assert ((read_cached_scripts w).1 = Raise TypeError) as Hrc.
  { unfold read_cached_scripts, bind at 1, CACHE_get at 1. rewrite Hidx.
    destruct (before ++ str "slugs_list" :: after) as [|s0 rest] eqn:Hl;
      [by destruct before|].
    rewrite <- Hl. unfold bind.
    pose proof (read_loop_collision s0 rest before after read []
                  (World (store w) (clock w) (trace w ++ [OpGet slugs_list_key]))
                  Hidx Hread) as Hloop.
    destruct (read_loop _ _ _) as [r w1]. simpl in Hloop. by subst r. }
  assert ((load_scripts net w).1 = Raise TypeError) as Hload.
  { unfold load_scripts, bind.
    destruct (read_cached_scripts w) as [r w1]. simpl in Hrc. by subst r. }
  split; [done|]. split; [done|].
  unfold search. rewrite Hquery. unfold bind.
  destruct (load_scripts net w) as [r w1]. simpl in Hload. by subst r.
Qed.

End CacheDefects.

(** ** The engine run on examples *)

Lemma C1_index_lists_oversized_slug_witness :
  let net := answers huge_payload in
  let w := (refetch_scripts (codec:=plain_codec) net empty_world).2 in
  let w' := (cache_scripts (codec:=plain_codec) [docker_script; huge_script]
               empty_world).2 in
  _fetch_scripts net = Ok [docker_script; huge_script] ∧
  (∃ compressed,
     encodes (codec:=plain_codec) huge_script compressed ∧
     too_large compressed = true) ∧
  store_get slugs_list_key 0 (store w)
    = Some (VList [str "docker"; str "huge"]) ∧
  store_get (script_key (str "huge")) 0 (store w) = None ∧
  trace w =
    [OpSet (script_key (str "docker")) (plain_value docker_script) _CACHE_TTL;
     OpSet slugs_list_key (VList [str "docker"; str "huge"]) _CACHE_TTL] ∧
  (∃ slugs e,
     store w' !! slugs_list_key = Some e ∧ entry_value e = VList slugs ∧
     slug huge_script ∈ slugs) ∧
  store w' !! script_key (slug huge_script)
    = store empty_world !! script_key (slug huge_script).
Proof.
  intros net w w'.
  split.
  { vm_cast_no_check (@eq_refl _ (@Ok (list script) [docker_script; huge_script])). }
  split.
  { eexists. split; [eexists; split; reflexivity|]. by vm_compute. }
  split; [by vm_compute|].
  split; [by vm_compute|].
  split; [by vm_compute|].
  eapply (C1_index_lists_oversized_slug (codec:=plain_codec)
            [docker_script; huge_script] empty_world huge_script).
  - apply (bool_decide_unpack _). by vm_compute.
  - repeat constructor; eexists; eexists; split; reflexivity.
  - right. left.
  - discriminate.
  - discriminate.
  - eexists. split; reflexivity.
  - by vm_compute.
Defined.

(** C3 as stated fails: the fetcher produces the snapshot of
    [huge_payload], whose slugs are distinct and non-empty; written to an
    empty cache and read back within the TTL, the read path yields no
    record, because the index names a slug that has no entry. *)
Lemma C3_counterexample :
  let scripts := [docker_script; huge_script] in
  let w := (cache_scripts (codec:=plain_codec) scripts empty_world).2 in
  _fetch_scripts (answers huge_payload) = Ok scripts ∧
  (cache_scripts (codec:=plain_codec) scripts empty_world).1 = Ok tt ∧
  (read_cached_scripts (codec:=plain_codec) (at_time 3600 w)).1 = Ok [] ∧
  (read_cached_scripts (codec:=plain_codec) (at_time 3600 w)).1 ≠ Ok scripts.
Proof.
  intros scripts w.
  assert ((read_cached_scripts (codec:=plain_codec) (at_time 3600 w)).1 = Ok [])
    as Hread by by vm_compute.
  split.
  { vm_cast_no_check (@eq_refl _ (@Ok (list script) [docker_script; huge_script])). }
  split; [by vm_compute|]. split; [done|].
  by rewrite Hread.
Qed.

Lemma C3_round_trip_witness :
  let scripts := [docker_script; portainer_script] in
  (cache_scripts (codec:=plain_codec) scripts empty_world).1 = Ok tt ∧
  (read_cached_scripts (codec:=plain_codec)
     (at_time 3600 (cache_scripts (codec:=plain_codec) scripts empty_world).2)).1
    = Ok scripts.
Proof.
  apply (C3_round_trip (codec:=plain_codec) [docker_script; portainer_script]
           empty_world 3600).
  - apply (bool_decide_unpack _). by vm_compute.
  - repeat constructor; by vm_compute.
  - repeat constructor; eexists _, _; repeat split; try reflexivity; by vm_compute.
  - by vm_compute.
Defined.

Lemma C2_index_collision_raises_witness :
  let net := answers colliding_payload in
  let w := (refetch_scripts (codec:=plain_codec) net empty_world).2 in
  _fetch_scripts net = Ok [colliding_script] ∧
  store_get slugs_list_key (clock w) (store w) = Some (VList [str "slugs_list"]) ∧
  decompress_value (codec:=plain_codec)
    (store_get (script_key (str "slugs_list")) (clock w) (store w)) = Raise TypeError ∧
  (read_cached_scripts (codec:=plain_codec) w).1 = Raise TypeError ∧
  (load_scripts (codec:=plain_codec) net w).1 = Raise TypeError ∧
  (search (codec:=plain_codec) (str "slugs") net w).1 = Raise TypeError.
Proof.
  intros net w.
  split; [by vm_compute|]. split; [by vm_compute|]. split; [by vm_compute|].
  apply (C2_index_collision_raises (codec:=plain_codec) w net [] [] []
           (str "slugs")).
  - by vm_compute.
  - constructor.
  - reflexivity.
Defined.

Lemma read_abort_and_refetch_witness :
  let net := answers two_scripts_payload in
  let fetched := [docker_script; portainer_script] in
  read_cached_scripts (codec:=plain_codec) half_cache =
    (Ok [], traced [OpGet slugs_list_key; OpGet (script_key (str "docker"));
                    OpGet (script_key (str "portainer"))] half_cache) ∧
  (load_scripts (codec:=plain_codec) net half_cache).1 = Ok fetched ∧
  (search (codec:=plain_codec) (str "docker portainer") net half_cache).1 =
    Ok (results_of (rank fetched (split (lower (str "docker portainer"))))).
Proof.
  apply (read_abort_and_refetch (codec:=plain_codec) half_cache
           (answers two_scripts_payload) [str "docker"] [] (str "portainer")
           [docker_script] [docker_script; portainer_script]
           (str "docker portainer")).
  - by vm_compute.
  - repeat constructor. eexists _, _. repeat split; try reflexivity; by vm_compute.
  - left. by vm_compute.
  - by vm_compute.
  - repeat constructor; intros; discriminate.
  - by vm_compute.
Defined.

Lemma C9_blank_query_untouched_witness :
  forallb isspace [" "%char; "009"%char; " "%char] = true ∧
  search (codec:=plain_codec) [" "%char; "009"%char; " "%char]
    (answers two_scripts_payload) half_cache = (Ok [], half_cache).
Proof.
  split; [reflexivity|].
  apply (C9_blank_query_untouched (codec:=plain_codec)). reflexivity.
Defined.

Lemma C4_score_conjunctive_witness :
  let tokens := [str "docker"; str "portainer"] in
  forallb (token_found management_script) tokens = false ∧
  _score_script management_script (map lower tokens) = 0 ∧
  (∀ scripts s, (s, management_script) ∉ rank scripts (map lower tokens)) ∧
  split (lower (str "Docker  Portainer")) = map lower (split (str "Docker  Portainer")).
Proof.
  pose proof (C4_score_conjunctive management_script [str "docker"; str "portainer"])
    as (_ & Hexcl & _).
  pose proof (C4_score_conjunctive management_script (split (str "Docker  Portainer")))
    as (_ & _ & Hsplit).
  split; [reflexivity|].
  split; [apply Hexcl; reflexivity|].
  split; [apply Hexcl; reflexivity|].
  apply Hsplit. reflexivity.
Defined.

Lemma C10_score_bounds_witness :
  (15, portainer_script) ∈ rank [management_script; portainer_script]
                                (split (lower (str "docker portainer"))) ∧
  15 = sum_points portainer_script (split (str "docker portainer")) ∧
  5 * 2 ≤ 15 ≤ 15 * 2.
Proof.
  assert ((15, portainer_script) ∈ rank [management_script; portainer_script]
            (split (lower (str "docker portainer")))) as Hin.
  { vm_compute. left. }
  split; [exact Hin|].
  pose proof (C10_score_bounds [management_script; portainer_script]
                (str "docker portainer") 15 portainer_script Hin) as (Hs & _ & Hb).
  split; [exact Hs|exact Hb].
Defined.


Lemma C7_snapshot_normalized_witness :
  _fetch_scripts (answers messy_payload) = Ok [docker_script; portainer_script] ∧
  name docker_script ≠ [] ∧ strip (name docker_script) = name docker_script ∧
  slug docker_script ≠ [] ∧ strip (slug docker_script) = slug docker_script ∧
  (length (description docker_script) ≤ 500)%nat ∧
  payload_candidates repeating_payload
    = [docker_script; portainer_script; docker_script] ∧
  _fetch_scripts (answers repeating_payload) = Ok [docker_script; portainer_script].
Proof.
  destruct (C7_snapshot_normalized messy_payload) as (snapshot & Hf & Hfields & _).
  assert (_fetch_scripts (answers messy_payload)
          = Ok [docker_script; portainer_script]) as Heq by by vm_compute.
  split; [exact Heq|].
  assert (docker_script ∈ snapshot) as Hin.
  { rewrite Heq in Hf. injection Hf as <-. left. }
  destruct (Hfields docker_script Hin) as (H1 & H2 & H3 & H4 & H5).
  do 5 (split; [done|]).
  split; [reflexivity|].
  destruct (C7_snapshot_normalized repeating_payload)
    as (snapshot' & Hf' & _ & _ & _ & _ & _ & Hfirst).
  rewrite Hf', Hfirst. reflexivity.
Defined.

Lemma C8_content_truncation_witness :
  (300 < length spaced_description)%nat ∧
  spaced_description !! 295%nat = Some space ∧
  result_content spaced_description = take 295 spaced_description ++ str "..." ∧
  result_content (str "A management UI") = str "A management UI".
Proof.
  pose proof (C8_content_truncation spaced_description) as (_ & Hcut & _).
  pose proof (C8_content_truncation (str "A management UI")) as (Hshort & _).
  split; [vm_compute; lia|]. split; [reflexivity|].
  split.
  - apply Hcut; [vm_compute; lia|lia|reflexivity|].
    intros j Hj.
    assert (j = 296 ∨ j = 297 ∨ j = 298 ∨ j = 299)%nat as [-> | [-> | [-> | ->]]] by lia;
      by vm_compute.
  - apply Hshort. vm_compute. lia.
Defined.

(** The examples of the specification. *)

Example score_docker_portainer :
  _score_script portainer_script (split (lower (str "docker portainer"))) = 15.
Proof. reflexivity. Qed.

Example score_docker_missing :
  _score_script management_script (split (lower (str "docker portainer"))) = 0.
Proof. reflexivity. Qed.

Example ranking_keeps_input_order_of_ties :
  rank [record_A; record_B; record_C] [str "x"]
  = [(15, record_A); (15, record_C); (10, record_B)].
Proof. reflexivity. Qed.

Example ranking_cap :
  length (rank (repeat record_A 25) [str "x"]) = 20%nat.
Proof. reflexivity. Qed.

Example search_from_half_cache :
  (search (codec:=plain_codec) (str "Docker") (answers two_scripts_payload)
     half_cache).1
  = Ok [main_result docker_script; main_result portainer_script].
Proof. by vm_compute. Qed.

(** * Further properties *)

(** ** The fetcher *)

Lemma first_by_slug_all seen cands :
  NoDup (map slug cands) →
  (∀ c, c ∈ cands → slug c ∉ seen) →
  first_by_slug seen cands = cands.
Proof.
  revert seen. induction cands as [|c cands IH]; intros seen Hnd Hseen; [done|].
  simpl in Hnd. apply NoDup_cons in Hnd as [Hc Hnd]. simpl.
  rewrite bool_decide_false by (apply Hseen; left).
  f_equal. apply IH; [done|].
  intros c' Hc'. apply not_elem_of_union. split.
  - intros Heq%elem_of_singleton. apply Hc. rewrite <- Heq.
    by apply (list_elem_of_fmap_2 slug).
  - apply Hseen. by right.
Qed.

Lemma fetch_disabled_or_blank st entry :
  disabled_or_blank entry = true → fetch_script st entry = st.
Proof.
  destruct entry as [| | | | |l|items]; try done. simpl.
  destruct (dict_get (str "name") items) as [[]|]; try done.
  destruct (dict_get (str "slug") items) as [[]|]; try done.
  destruct (bool_decide (strip s = []) || bool_decide (strip s0 = [])); [done|].
  simpl. by intros ->.
Qed.

(** X1. An entry whose name or slug is blank after trimming, or that is
    flagged ["disable": true], is dropped without a trace: the snapshot of a
    payload is that of the payload without the entry. *)
Theorem fetch_skips_disabled_or_blank
    (before after : list pyjson) (items items' : list (pystr * pyjson))
    (es1 es2 : list pyjson) (entry : pyjson) :
  disabled_or_blank entry = true →
  category_scripts items = JList (es1 ++ entry :: es2) →
  category_scripts items' = JList (es1 ++ es2) →
  _fetch_scripts (answers (JList (before ++ JDict items :: after))) =
  _fetch_scripts (answers (JList (before ++ JDict items' :: after))).
Proof.
  intros Hbad Hes Hes'. rewrite !fetch_scripts_answers.
  unfold fetch_loop. rewrite !fold_left_app. simpl.
  rewrite Hes, Hes', !fold_left_app. simpl.
  by rewrite (fetch_disabled_or_blank _ entry Hbad).
Qed.

Lemma fetch_skips_disabled_or_blank_witness :
  disabled_or_blank disabled_entry = true ∧
  _fetch_scripts (answers (JList ([] ++ JDict [(str "scripts",
      JList ([entry_of_script docker_script] ++ disabled_entry
             :: [entry_of_script portainer_script]))]
      :: []))) =
  _fetch_scripts (answers (JList ([] ++ JDict [(str "scripts",
      JList ([entry_of_script docker_script] ++ [entry_of_script portainer_script]))]
      :: []))).
Proof.
  split; [reflexivity|].
  apply (fetch_skips_disabled_or_blank [] [] _ _ [entry_of_script docker_script]
           [entry_of_script portainer_script] disabled_entry); reflexivity.
Defined.

(** X2. When the acceptable records of a payload have pairwise distinct
    slugs, the snapshot is all of them, in scanning order: the fetcher drops
    nothing but rejected entries and repeated slugs. *)
Theorem fetch_keeps_distinct_candidates (data : pyjson) :
  NoDup (map slug (payload_candidates data)) →
  _fetch_scripts (answers data) = Ok (payload_candidates data).
Proof.
  intros Hnd. rewrite fetch_scripts_answers. f_equal.
  destruct data as [| | | | |l|items]; try done. simpl in *.
  rewrite fetch_loop_first_by_slug.
  apply first_by_slug_all; [done|]. intros c _. apply not_elem_of_empty.
Qed.

Lemma fetch_keeps_distinct_candidates_witness :
  NoDup (map slug (payload_candidates two_scripts_payload)) ∧
  _fetch_scripts (answers two_scripts_payload) = Ok [docker_script; portainer_script].
Proof.
  assert (NoDup (map slug (payload_candidates two_scripts_payload))) as Hnd.
  { apply (bool_decide_unpack _). by vm_compute. }
  split; [exact Hnd|].
  exact (fetch_keeps_distinct_candidates two_scripts_payload Hnd).
Defined.

Lemma fetch_scripts_cases net :
  _fetch_scripts net = Ok [] ∨ ∃ l, _fetch_scripts net = Ok (fetch_loop l).
Proof.
  destruct net as [| |st [|data]]; try by left.
  - left. unfold _fetch_scripts, fetch_request. simpl. by case_bool_decide.
  - unfold _fetch_scripts, fetch_request. simpl.
    case_bool_decide; simpl; [by left|].
    destruct data; try by left. right. by eexists.
Qed.

(** Every snapshot has distinct slugs and normalized fields, whatever the
    exchange it came from. *)
Lemma fetch_scripts_well_formed net snapshot :
  _fetch_scripts net = Ok snapshot →
  NoDup (map slug snapshot) ∧
  ∀ r, r ∈ snapshot →
       name r ≠ [] ∧ strip (name r) = name r ∧
       slug r ≠ [] ∧ strip (slug r) = slug r ∧
       (length (description r) ≤ 500)%nat.
Proof.
  intros Hf. destruct (fetch_scripts_cases net) as [H|[l H]];
    rewrite H in Hf; injection Hf as <-.
  - split; [constructor|]. by intros r ?%elem_of_nil.
  - rewrite fetch_loop_first_by_slug. split; [apply first_by_slug_NoDup|].
    intros r Hr. apply (candidates_fields l).
    eapply sublist_elem_of; [apply first_by_slug_sublist|done].
Qed.

Lemma normalize_entry_of_script r :
  name r ≠ [] → strip (name r) = name r →
  slug r ≠ [] → strip (slug r) = slug r →
  (length (description r) ≤ 500)%nat →
  normalize_entry (entry_of_script r) = Some r.
Proof.
  intros Hn Hsn Hs Hss Hd. destruct r as [n s d]. simpl in *.
  unfold entry_of_script, entry_of, normalize_entry. simpl.
  rewrite Hsn, Hss.
  rewrite (bool_decide_false (n = [])), (bool_decide_false (s = [])) by done.
  simpl. f_equal. f_equal. by apply take_ge.
Qed.

Lemma candidates_of_snapshot snapshot :
  (∀ r, r ∈ snapshot →
        name r ≠ [] ∧ strip (name r) = name r ∧
        slug r ≠ [] ∧ strip (slug r) = slug r ∧
        (length (description r) ≤ 500)%nat) →
  payload_candidates (one_category (map entry_of_script snapshot)) = snapshot.
Proof.
  intros Hall. unfold payload_candidates, one_category, candidates. simpl.
  rewrite app_nil_r.
  induction snapshot as [|r snapshot IH]; [done|].
  change (omap normalize_entry (map entry_of_script (r :: snapshot)))
    with (match normalize_entry (entry_of_script r) with
          | Some y => y :: omap normalize_entry (map entry_of_script snapshot)
          | None => omap normalize_entry (map entry_of_script snapshot)
          end).
  destruct (Hall r) as (? & ? & ? & ? & ?); [left|].
  rewrite normalize_entry_of_script by done. f_equal.
  apply IH. intros r' Hr'. apply Hall. by right.
Qed.

(** X3. Fetching is idempotent: a payload made of the records of a snapshot
    is fetched back as that snapshot. Trimming, the cut of the description
    and the removal of repeated slugs change nothing the second time. *)
Theorem fetch_of_snapshot_is_snapshot (net : http_outcome) (snapshot : list script) :
  _fetch_scripts net = Ok snapshot →
  _fetch_scripts (answers (one_category (map entry_of_script snapshot))) = Ok snapshot.
Proof.
  intros [Hnd Hfields]%fetch_scripts_well_formed.
  rewrite fetch_scripts_answers. f_equal.
  unfold one_category at 1. rewrite fetch_loop_first_by_slug.
  change (candidates [?c]) with (payload_candidates (JList [c])).
  fold (one_category (map entry_of_script snapshot)).
  rewrite (candidates_of_snapshot snapshot Hfields).
  apply first_by_slug_all; [done|]. intros c _. apply not_elem_of_empty.
Qed.

Lemma fetch_of_snapshot_is_snapshot_witness :
  _fetch_scripts (answers messy_payload) = Ok [docker_script; portainer_script] ∧
  _fetch_scripts (answers (one_category
     (map entry_of_script [docker_script; portainer_script])))
  = Ok [docker_script; portainer_script].
Proof.
  assert (_fetch_scripts (answers messy_payload)
          = Ok [docker_script; portainer_script]) as Hf by by vm_compute.
  split; [exact Hf|].
  exact (fetch_of_snapshot_is_snapshot (answers messy_payload) _ Hf).
Defined.

(** ** The scorer and the ranking *)

Lemma score_loop_perm n d ws ws' :
  ws ≡ₚ ws' → ∀ acc, score_loop n d ws acc = score_loop n d ws' acc.
Proof.
  induction 1 as [|w ws ws' _ IH|w1 w2 ws|ws ws' ws'' _ IH1 _ IH2]; intros acc.
  - done.
  - simpl. destruct (str_in w n || str_in w d); [apply IH|done].
  - simpl.
    destruct (str_in w1 n), (str_in w1 d), (str_in w2 n), (str_in w2 d);
      simpl; try done; f_equal; lia.
  - by rewrite IH1.
Qed.

(** X4. The order of the words does not matter: two word lists that are
    permutations of each other give every record the same score, and every
    record list the same ranking. *)
Theorem score_and_rank_ignore_word_order (ws ws' : list pystr) :
  ws ≡ₚ ws' →
  (∀ sc, _score_script sc ws = _score_script sc ws') ∧
  (∀ scripts, rank scripts ws = rank scripts ws').
Proof.
  intros Hp.
  assert (∀ sc, _score_script sc ws = _score_script sc ws') as Hs.
  { intros sc. unfold _score_script. by apply score_loop_perm. }
  split; [done|].
  intros scripts. unfold rank. f_equal. f_equal.
  induction scripts as [|sc scripts IH]; simpl; [done|].
  by rewrite Hs, IH.
Qed.

Lemma score_and_rank_ignore_word_order_witness :
  [str "docker"; str "portainer"] ≡ₚ [str "portainer"; str "docker"] ∧
  _score_script portainer_script [str "docker"; str "portainer"]
  = _score_script portainer_script [str "portainer"; str "docker"].
Proof.
  assert ([str "docker"; str "portainer"] ≡ₚ [str "portainer"; str "docker"])
    as Hp by apply Permutation_swap.
  split; [exact Hp|].
  exact (proj1 (score_and_rank_ignore_word_order _ _ Hp) portainer_script).
Defined.

(** X5. The cut to 20 results drops the lowest scores only: the scored
    records are the ranking together with the dropped ones, no dropped
    record has a higher score than a ranked one, and nothing is dropped when
    at most 20 records match. *)
Theorem rank_keeps_the_best (scripts : list script) (words : list pystr) :
  ∃ dropped,
    scored_scripts scripts words ≡ₚ rank scripts words ++ dropped ∧
    (∀ x y, x ∈ rank scripts words → y ∈ dropped → y.1 ≤ x.1) ∧
    ((length (scored_scripts scripts words) ≤ 20)%nat → dropped = []).
Proof.
  exists (drop _MAX_RESULTS (sort_desc (scored_scripts scripts words))).
  unfold rank. split; [by rewrite take_drop, sort_desc_perm|]. split.
  - intros x y Hx Hy.
    pose proof (sort_desc_sorted (scored_scripts scripts words)) as Hs.
    unfold by_score_desc in Hs.
    rewrite <- (take_drop _MAX_RESULTS) in Hs.
    by apply (StronglySorted_app_1_elem_of _ _ _ _ _ Hs).
  - intros Hlen. apply drop_ge.
    rewrite (Permutation_length (sort_desc_perm _)). unfold _MAX_RESULTS. lia.
Qed.

Lemma rank_keeps_the_best_witness :
  ∃ dropped,
    scored_scripts [record_A; record_B; record_C] [str "x"]
      ≡ₚ rank [record_A; record_B; record_C] [str "x"] ++ dropped ∧
    dropped = [].
Proof.
  destruct (rank_keeps_the_best [record_A; record_B; record_C] [str "x"])
    as (dropped & Hp & _ & Hnone).
  exists dropped. split; [exact Hp|]. apply Hnone. vm_compute. lia.
Defined.

Lemma before_last_space_some s p :
  before_last_space s = Some p → ∃ rest, s = p ++ space :: rest.
Proof.
  revert p. induction s as [|c s IH]; intros p; simpl; [done|].
  destruct (before_last_space s) as [p'|].
  - intros [= <-]. destruct (IH p' eq_refl) as [rest ->]. by exists rest.
  - case_bool_decide as Hc; [|done]. intros [= <-]. subst c. by exists s.
Qed.

(** X6. The content of a result is never longer than 303 characters, and a
    content that was cut is a prefix of the description, of at most 300
    characters, followed by "...". *)
Theorem result_content_bounded (d : pystr) :
  (length (result_content d) ≤ 303)%nat ∧
  ((300 < length d)%nat →
     ∃ n, (n ≤ 300)%nat ∧ result_content d = take n d ++ str "...").
Proof.
  assert ((300 < length d)%nat →
          ∃ n, (n ≤ 300)%nat ∧ result_content d = take n d ++ str "...") as Hcut.
  { intros Hlen. rewrite result_content_long by done.
    unfold rsplit_space_head.
    destruct (before_last_space (take 300 d)) as [p|] eqn:E.
    - destruct (before_last_space_some _ _ E) as [rest Hrest].
      assert (length (take 300 d) = 300%nat) as Hl by (rewrite length_take; lia).
      rewrite Hrest, length_app in Hl. simpl in Hl.
      assert (take (length p) (take 300 d) = p) as Hp
        by (rewrite Hrest; apply take_app_length).
      rewrite take_take in Hp.
      replace (length p `min` 300)%nat with (length p) in Hp by lia.
      exists (length p). split; [lia|]. by rewrite Hp.
    - exists 300%nat. split; [lia|done]. }
  split; [|done].
  destruct (decide (300 < length d)%nat) as [Hlen|Hlen].
  - destruct (Hcut Hlen) as (n & Hn & ->).
    rewrite length_app, length_take. change (length (str "...")) with 3%nat. lia.
  - unfold result_content.
    destruct (300 <? Z.of_nat (length d)) eqn:E; [apply Z.ltb_lt in E|]; lia.
Qed.

Lemma result_content_bounded_witness :
  (300 < length spaced_description)%nat ∧
  ∃ n, (n ≤ 300)%nat ∧
       result_content spaced_description = take n spaced_description ++ str "...".
Proof.
  assert (300 < length spaced_description)%nat as Hlen by (vm_compute; lia).
  split; [exact Hlen|].
  exact (proj2 (result_content_bounded spaced_description) Hlen).
Defined.

Lemma rank_slugs_NoDup scripts words :
  NoDup (map slug scripts) →
  NoDup (map (λ x : Z * script, slug x.2) (rank scripts words)).
Proof.
  intros Hnd.
  assert (NoDup (map (λ x : Z * script, slug x.2) (scored_scripts scripts words)))
    as Hscored.
  { pose proof (scored_scripts_sublist scripts words) as Hsub.
    apply (fmap_sublist slug) in Hsub.
    apply (sublist_NoDup _ _ Hnd) in Hsub.
    by rewrite <- list_fmap_compose in Hsub. }
  unfold rank.
  apply (sublist_NoDup _ (map (λ x : Z * script, slug x.2)
                            (sort_desc (scored_scripts scripts words)))).
  - by rewrite (Permutation_map (λ x : Z * script, slug x.2)
                  (sort_desc_perm (scored_scripts scripts words))).
  - apply (fmap_sublist (λ x : Z * script, slug x.2)), sublist_take.
Qed.

(** X7. When the records have pairwise distinct slugs, as those of a
    snapshot have, the results link to pairwise distinct URLs: no record is
    listed twice. *)
Theorem results_have_distinct_urls (scripts : list script) (words : list pystr) :
  NoDup (map slug scripts) →
  NoDup (map url (results_of (rank scripts words))).
Proof.
  intros Hnd%(rank_slugs_NoDup scripts words).
  unfold results_of. rewrite map_map. simpl.
  apply (NoDup_fmap_2 (app _SCRIPT_URL_prefix)) in Hnd.
  by rewrite <- list_fmap_compose in Hnd.
Qed.

Lemma results_have_distinct_urls_witness :
  NoDup (map slug [record_A; record_B; record_C]) ∧
  NoDup (map url (results_of (rank [record_A; record_B; record_C] [str "x"]))).
Proof.
  assert (NoDup (map slug [record_A; record_B; record_C])) as Hnd.
  { apply (bool_decide_unpack _). by vm_compute. }
  split; [exact Hnd|].
  exact (results_have_distinct_urls _ [str "x"] Hnd).
Defined.

Lemma lower_char_idem c : lower_char (lower_char c) = lower_char c.
Proof. by destruct c as [[] [] [] [] [] [] [] []]. Qed.

Lemma lower_lower s : lower (lower s) = lower s.
Proof.
  unfold lower. rewrite map_map. apply map_ext. apply lower_char_idem.
Qed.

Lemma lstrip_lower s : lstrip (lower s) = lower (lstrip s).
Proof.
  induction s as [|c s IH]; simpl; [done|].
  rewrite isspace_lower_char. by destruct (isspace c).
Qed.

Lemma reverse_lower s : reverse (lower s) = lower (reverse s).
Proof. symmetry. apply (fmap_reverse lower_char). Qed.

Lemma strip_lower s : strip (lower s) = lower (strip s).
Proof.
  unfold strip. by rewrite lstrip_lower, reverse_lower, lstrip_lower, reverse_lower.
Qed.

Lemma blank_lower query : blank (lower query) = blank query.
Proof.
  unfold blank. destruct query as [|c query]; [done|].
  change (lower (c :: query)) with (lower_char c :: lower query) at 1.
  change (lower_char c :: lower query) with (lower (c :: query)).
  rewrite strip_lower. by destruct (strip (c :: query)).
Qed.

(** ** The loader, [init] and [search] *)

Section FurtherLoaderProperties.
Context `{codec : Codec}.

(** X8. [search] does not tell upper case from lower case in the query: two
    queries with the same lower-cased text give the same results and the
    same cache traffic. *)
Theorem search_ignores_query_case (q1 q2 : pystr) (net : http_outcome) (w : world) :
  lower q1 = lower q2 →
  search q1 net w = search q2 net w.
Proof.
  intros H. unfold search.
  rewrite <- (blank_lower q1), <- (blank_lower q2), H.
  by destruct (blank (lower q2)).
Qed.

Lemma slugs_list_key_is_script_key : slugs_list_key = script_key (str "slugs_list").
Proof. reflexivity. Qed.

Lemma footprint_refl w : footprint w w.
Proof. split; [done|]. intros key. by left. Qed.

Lemma footprint_trans w1 w2 w3 :
  footprint w1 w2 → footprint w2 w3 → footprint w1 w3.
Proof.
  intros [Hc12 H12] [Hc23 H23]. split; [congruence|].
  intros key. destruct (H23 key) as [Heq|(s & v & -> & Hw)].
  - rewrite Heq. apply H12.
  - right. exists s, v. split; [done|]. by rewrite Hw, Hc12.
Qed.

Lemma footprint_traced ops w : footprint w (traced ops w).
Proof. split; [done|]. intros key. by left. Qed.

Lemma footprint_put slug0 value w :
  footprint w (put (script_key slug0) value _CACHE_TTL w).
Proof.
  split; [done|]. intros key. unfold put. simpl.
  destruct (decide (script_key slug0 = key)) as [<-|Hne].
  - right. exists slug0, value. split; [done|]. by rewrite lookup_insert_eq.
  - left. by rewrite lookup_insert_ne.
Qed.

Lemma cache_loop_footprint scripts slugs w :
  footprint w (cache_loop scripts slugs w).2.
Proof.
  revert slugs w. induction scripts as [|sc scripts IH]; intros slugs w.
  - apply footprint_refl.
  - simpl. destruct (slug sc) as [|a l]; [apply IH|].
    unfold bind, lift.
    destruct (pickle_dumps sc) as [b|e]; [|apply footprint_refl].
    destruct (zlib_compress b) as [c|e]; [|apply footprint_refl].
    destruct (too_large c); [apply IH|]. simpl.
    eapply footprint_trans; [|apply IH].
    apply (footprint_put (a :: l) (VBytes c) w).
Qed.

Lemma cache_scripts_footprint scripts w :
  footprint w (cache_scripts scripts w).2.
Proof.
  unfold cache_scripts, bind.
  pose proof (cache_loop_footprint scripts [] w) as H.
  destruct (cache_loop scripts [] w) as [[slugs|e] w1]; simpl in *; [|done].
  eapply footprint_trans; [exact H|].
  rewrite slugs_list_key_is_script_key.
  apply (footprint_put (str "slugs_list")).
Qed.

(** The read loop leaves the stored entries and the clock alone: it adds
    lookups to the trace, nothing else. *)
Lemma read_loop_world slugs temp w :
  ∃ ops, (read_loop slugs temp w).2 = traced ops w.
Proof.
  revert temp w. induction slugs as [|s slugs IH]; intros temp w.
  - exists []. unfold traced. simpl. rewrite app_nil_r. by destruct w.
  - simpl. unfold bind at 1, CACHE_get at 1.
    change (World (store w) (clock w) (trace w ++ [OpGet (script_key s)]))
      with (traced [OpGet (script_key s)] w).
    destruct (truthy _); [|by eexists].
    unfold bind, try_except, lift, ret.
    destruct (decompress_value _) as [b|e]; simpl.
    + destruct (pickle_loads b) as [sc|e]; simpl.
      * destruct (IH (temp ++ [sc]) (traced [OpGet (script_key s)] w)) as [ops ->].
        rewrite traced_traced. by eexists.
      * destruct (_ || _); by eexists.
    + destruct (_ || _); by eexists.
Qed.

Lemma read_cached_scripts_world w :
  ∃ ops, (read_cached_scripts w).2 = traced ops w.
Proof.
  unfold read_cached_scripts, bind at 1, CACHE_get at 1.
  change (World (store w) (clock w) (trace w ++ [OpGet slugs_list_key]))
    with (traced [OpGet slugs_list_key] w).
  destruct (store_get slugs_list_key (clock w) (store w)) as [[b|[|s l]]|];
    try by eexists.
  unfold bind.
  destruct (read_loop_world (s :: l) [] (traced [OpGet slugs_list_key] w))
    as [ops Hops].
  destruct (read_loop (s :: l) [] (traced [OpGet slugs_list_key] w))
    as [[[ok temp]|e] w1]; simpl in *; subst w1.
  - rewrite traced_traced. destruct ok; by eexists.
  - rewrite traced_traced. by eexists.
Qed.

Lemma refetch_scripts_footprint net w :
  footprint w (refetch_scripts net w).2.
Proof.
  unfold refetch_scripts, bind at 1, lift.
  destruct (_fetch_scripts net) as [[|sc rest]|e]; try apply footprint_refl.
  unfold bind, try_except.
  pose proof (cache_scripts_footprint (sc :: rest) w) as H.
  destruct (cache_scripts (sc :: rest) w) as [[[]|e] w1]; cbn [fst snd] in *;
    [done|].
  by destruct (caught e _).
Qed.

Lemma load_scripts_footprint net w :
  footprint w (load_scripts net w).2.
Proof.
  unfold load_scripts, bind.
  destruct (read_cached_scripts_world w) as [ops Hops].
  destruct (read_cached_scripts w) as [[[|sc rest]|e] w1]; simpl in *; subst w1;
    try apply footprint_traced.
  eapply footprint_trans; [apply (footprint_traced ops)|].
  apply refetch_scripts_footprint.
Qed.

Lemma search_footprint query net w : footprint w (search query net w).2.
Proof.
  unfold search. destruct (blank query); [apply footprint_refl|].
  unfold bind.
  pose proof (load_scripts_footprint net w) as H.
  by destruct (load_scripts net w) as [[[|sc rest]|e] w1].
Qed.

Lemma init_footprint net w : footprint w (init net w).2.
Proof.
  unfold init, bind at 1, lift.
  destruct (_fetch_scripts net) as [[|sc rest]|e]; try apply footprint_refl.
  unfold try_except, bind.
  pose proof (cache_scripts_footprint (sc :: rest) w) as H.
  destruct (cache_scripts (sc :: rest) w) as [[[]|e] w1]; cbn [fst snd] in *;
    [done|].
  by destruct (caught e _).
Qed.

(** X9. Whatever the query, the exchange with the remote, the codec and the
    cache, [search] and [init] write under the engine's own keys only: an
    entry of the cache that differs after the call is under a key
    "script_..." (the key of a slug, or the key of the index). *)
Theorem search_and_init_write_script_keys_only
    (query : pystr) (net : http_outcome) (w : world) (key : pystr) :
  (store (search query net w).2 !! key = store w !! key
   ∨ ∃ slug0, key = str "script_" ++ slug0) ∧
  (store (init net w).2 !! key = store w !! key
   ∨ ∃ slug0, key = str "script_" ++ slug0).
Proof.
  destruct (search_footprint query net w) as [_ Hs].
  destruct (init_footprint net w) as [_ Hi].
  split.
  - destruct (Hs key) as [?|(slug0 & _ & -> & _)]; [by left|right; by eexists].
  - destruct (Hi key) as [?|(slug0 & _ & -> & _)]; [by left|right; by eexists].
Qed.

End FurtherLoaderProperties.

Section FurtherLoaderTheorems.
Context `{codec : Codec}.




(** X11. Total failure is an empty answer: when the index is absent,
    expired, not a list or an empty list, and the fetch yields nothing,
    [search] returns no result for any query that is not blank, after one
    lookup of the index and without writing to the cache. *)
Theorem search_total_failure (query : pystr) (net : http_outcome) (w : world) :
  (∀ s l, store_get slugs_list_key (clock w) (store w) ≠ Some (VList (s :: l))) →
  _fetch_scripts net = Ok [] →
  blank query = false →
  search query net w = (Ok [], traced [OpGet slugs_list_key] w).
Proof.
  intros Hindex Hfetch Hquery. unfold search. rewrite Hquery.
  unfold bind, load_scripts, bind, read_cached_scripts, bind, CACHE_get.
  destruct (store_get slugs_list_key (clock w) (store w)) as [[b|[|s l]]|] eqn:E;
    try (by destruct (Hindex s l));
    unfold ret, refetch_scripts, bind, lift; by rewrite Hfetch.
Qed.

(** X12. The entries of a snapshot live 43200 seconds: once that time has
    passed since the write, the read path finds no index and yields no
    record, after the one lookup of the index. *)
Theorem cache_expires_after_ttl (scripts : list script) (w : world) (t : Z) :
  Forall (λ sc, ∃ compressed, encodes sc compressed) scripts →
  clock w + 43200 ≤ t →
  let w1 := at_time t (cache_scripts scripts w).2 in
  read_cached_scripts w1 = (Ok [], traced [OpGet slugs_list_key] w1).
Proof.
  intros Henc Ht. rewrite (cache_scripts_run scripts w Henc). cbn [snd].
  unfold read_cached_scripts, bind, CACHE_get.
  assert (store_get slugs_list_key t
            (store (put slugs_list_key (VList (indexed_slugs scripts)) _CACHE_TTL
                      (cache_loop scripts [] w).2)) = None) as Hget.
  { unfold store_get, put. simpl. rewrite lookup_insert_eq. simpl.
    rewrite cache_loop_clock.
    destruct (t <? clock w + _CACHE_TTL) eqn:E; [|done].
    apply Z.ltb_lt in E. unfold _CACHE_TTL in E. lia. }
  simpl. simpl in Hget. by rewrite Hget.
Qed.

End FurtherLoaderTheorems.

Section WarmCache.
Context `{codec : Codec}.

(** After a snapshot of cacheable records was written, and before the TTL
    has passed, the index lists its slugs and every entry is readable. *)
Lemma written_cache_readable scripts w t :
  NoDup (map slug scripts) →
  Forall (λ sc, slug sc ≠ [] ∧ slug sc ≠ str "slugs_list") scripts →
  Forall cacheable scripts →
  t < clock w + _CACHE_TTL →
  let w2 := at_time t (cache_scripts scripts w).2 in
  (cache_scripts scripts w).1 = Ok tt ∧
  store_get slugs_list_key (clock w2) (store w2) = Some (VList (map slug scripts)) ∧
  Forall2 (readable (store w2) (clock w2)) (map slug scripts) scripts.
Proof.
  intros Hnd Hslugs Hfit Ht.
  assert (Forall (λ sc, ∃ compressed, encodes sc compressed) scripts) as Henc.
  { eapply Forall_impl; [exact Hfit|].
    intros sc (b & c & Hd & Hc & _). by exists c, b. }
  rewrite (cache_scripts_run scripts w Henc). cbn [fst snd].
  rewrite indexed_slugs_all
    by (eapply Forall_impl; [exact Hslugs|]; by intros ? [? _]).
  split; [done|].
  assert ((t <? clock w + _CACHE_TTL) = true) as Hlt by by apply Z.ltb_lt.
  split.
  - unfold store_get, put. simpl. rewrite lookup_insert_eq. simpl.
    by rewrite cache_loop_clock, Hlt.
  - apply Forall2_readable_slugs. apply Forall_forall. intros sc Hin.
    pose proof (proj1 (Forall_forall _ _) Hfit sc Hin)
      as (b & c & Hd & Hc & Hne & Hcap & Hdec & Hload).
    pose proof (proj1 (Forall_forall _ _) Hslugs sc Hin) as [Hs Hidx].
    exists c, b. split; [|done].
    unfold store_get, put. simpl.
    rewrite lookup_insert_ne
      by (intros Hk; symmetry in Hk; by apply script_key_index in Hk).
    rewrite (cache_loop_store_written scripts [] w sc c); try done;
      [|by exists b].
    simpl. by rewrite Hlt.
Qed.

(** A search on a cache whose index and entries are all readable is served
    from the cache: index and entries are looked up, nothing is fetched or
    written. *)
Lemma search_served_from_cache w slug0 rest scripts query net :
  store_get slugs_list_key (clock w) (store w) = Some (VList (slug0 :: rest)) →
  Forall2 (readable (store w) (clock w)) (slug0 :: rest) scripts →
  blank query = false →
  search query net w =
  (Ok (results_of (rank scripts (split (lower query)))),
   traced (OpGet slugs_list_key
           :: map (λ s, OpGet (script_key s)) (slug0 :: rest)) w).
Proof.
  intros Hindex Hread Hquery. unfold search. rewrite Hquery.
  unfold bind at 1, load_scripts, bind at 1, read_cached_scripts, bind at 1,
    CACHE_get at 1.
  rewrite Hindex.
  change (World (store w) (clock w) (trace w ++ [OpGet slugs_list_key]))
    with (traced [OpGet slugs_list_key] w).
  unfold bind at 1.
  rewrite (read_loop_readable _ _ [] (traced [OpGet slugs_list_key] w) Hread).
  rewrite traced_traced. cbn [fst snd app].
  apply Forall2_cons_inv_l in Hread as (sc & scs & _ & _ & ->). done.
Qed.

(** X13. Pre-warming works: after [init] has fetched a non-empty snapshot
    of cacheable records (none with the slug "slugs_list"), [init] returns
    [True], and until the TTL has passed every search that is not blank is
    answered from the cache alone: its results are the ranking of the
    snapshot whatever the remote would answer, and its cache traffic is the
    lookup of the index and of each record, with no write. *)
Theorem search_after_init_is_offline (net net' : http_outcome) (w : world)
    (fetched : list script) (t : Z) (query : pystr) :
  _fetch_scripts net = Ok fetched →
  fetched ≠ [] →
  Forall cacheable fetched →
  Forall (λ sc, slug sc ≠ str "slugs_list") fetched →
  clock w ≤ t < clock w + _CACHE_TTL →
  blank query = false →
  let w1 := at_time t (init net w).2 in
  (init net w).1 = Ok true ∧
  search query net' w1 =
    (Ok (results_of (rank fetched (split (lower query)))),
     traced (OpGet slugs_list_key
             :: map (λ sc, OpGet (script_key (slug sc))) fetched) w1).
Proof.
  intros Hfetch Hne Hfit Hidx Ht Hquery.
  destruct (fetch_scripts_well_formed net fetched Hfetch) as [Hnd Hfields].
  assert (Forall (λ sc, slug sc ≠ [] ∧ slug sc ≠ str "slugs_list") fetched)
    as Hslugs.
  { apply Forall_forall. intros sc Hin. split.
    - by destruct (Hfields sc Hin) as (_ & _ & ? & _).
    - by apply (proj1 (Forall_forall _ _) Hidx sc). }
  destruct (written_cache_readable fetched w t Hnd Hslugs Hfit (proj2 Ht))
    as (Hok & Hindex & Hread).
  assert (init net w = (Ok true, (cache_scripts fetched w).2)) as Hinit.
  { unfold init, bind at 1, lift. rewrite Hfetch.
    destruct fetched as [|sc rest]; [done|].
    unfold try_except, bind.
    destruct (cache_scripts (sc :: rest) w) as [r w']. simpl in Hok. by subst r. }
  rewrite Hinit. cbn [fst snd]. split; [done|].
  destruct fetched as [|sc rest]; [done|].
  rewrite (search_served_from_cache _ (slug sc) (map slug rest) (sc :: rest)
             query net' Hindex Hread Hquery).
  cbn [map]. by rewrite map_map.
Qed.

(** X14. A search that misses the cache fills it: when the index is absent
    (or expired, not a list, empty) and the fetch yields a non-empty
    snapshot of cacheable records, the search ranks the fetched records,
    and until the TTL has passed a second search is answered from the cache
    alone, with the ranking of the same records and no write. *)
Theorem search_miss_then_hit (net net' : http_outcome) (w : world)
    (fetched : list script) (t : Z) (query query' : pystr) :
  (∀ s l, store_get slugs_list_key (clock w) (store w) ≠ Some (VList (s :: l))) →
  _fetch_scripts net = Ok fetched →
  fetched ≠ [] →
  Forall cacheable fetched →
  Forall (λ sc, slug sc ≠ str "slugs_list") fetched →
  clock w ≤ t < clock w + _CACHE_TTL →
  blank query = false → blank query' = false →
  let w1 := at_time t (search query net w).2 in
  (search query net w).1 = Ok (results_of (rank fetched (split (lower query)))) ∧
  search query' net' w1 =
    (Ok (results_of (rank fetched (split (lower query')))),
     traced (OpGet slugs_list_key
             :: map (λ sc, OpGet (script_key (slug sc))) fetched) w1).
Proof.
  intros Hmiss Hfetch Hne Hfit Hidx Ht Hquery Hquery'.
  destruct (fetch_scripts_well_formed net fetched Hfetch) as [Hnd Hfields].
  assert (Forall (λ sc, slug sc ≠ [] ∧ slug sc ≠ str "slugs_list") fetched)
    as Hslugs.
  { apply Forall_forall. intros sc Hin. split.
    - by destruct (Hfields sc Hin) as (_ & _ & ? & _).
    - by apply (proj1 (Forall_forall _ _) Hidx sc). }
  set (w0 := traced [OpGet slugs_list_key] w).
  destruct (written_cache_readable fetched w0 t Hnd Hslugs Hfit (proj2 Ht))
    as (Hok & Hindex & Hread).
  assert (search query net w
          = (Ok (results_of (rank fetched (split (lower query)))),
             (cache_scripts fetched w0).2)) as Hsearch.
  { assert (read_cached_scripts w = (Ok [], w0)) as Hret.
    { unfold read_cached_scripts, bind, CACHE_get. fold w0.
      destruct (store_get slugs_list_key (clock w) (store w))
        as [[b|[|s l]]|] eqn:E; try done. by destruct (Hmiss s l). }
    unfold search. rewrite Hquery.
    unfold bind at 1, load_scripts, bind at 1. rewrite Hret.
    unfold refetch_scripts, bind at 1, lift. rewrite Hfetch.
    destruct fetched as [|sc rest]; [done|].
    unfold bind, try_except.
    destruct (cache_scripts (sc :: rest) w0) as [r w']. simpl in Hok. by subst r. }
  rewrite Hsearch. cbn [fst snd]. split; [done|].
  destruct fetched as [|sc rest]; [done|].
  rewrite (search_served_from_cache _ (slug sc) (map slug rest) (sc :: rest)
             query' net' Hindex Hread Hquery').
  cbn [map]. by rewrite map_map.
Qed.

End WarmCache.

Section InitOutcome.
Context `{codec : Codec}.


End InitOutcome.

(** ** The further properties on examples *)

Lemma search_ignores_query_case_witness :
  lower (str "Docker") = lower (str "DOCKER") ∧
  search (codec:=plain_codec) (str "Docker") (answers two_scripts_payload) half_cache
  = search (codec:=plain_codec) (str "DOCKER") (answers two_scripts_payload) half_cache.
Proof.
  split; [reflexivity|].
  apply (search_ignores_query_case (codec:=plain_codec)). reflexivity.
Defined.


Lemma search_total_failure_witness :
  search (codec:=plain_codec) (str "docker") TransportFailure empty_world
  = (Ok [], traced [OpGet slugs_list_key] empty_world).
Proof.
  apply (search_total_failure (codec:=plain_codec)).
  - intros s l H. vm_compute in H. discriminate.
  - reflexivity.
  - reflexivity.
Defined.

Lemma cache_expires_after_ttl_witness :
  let w1 := at_time 43200
              (cache_scripts (codec:=plain_codec)
                 [docker_script; portainer_script] empty_world).2 in
  read_cached_scripts (codec:=plain_codec) w1
  = (Ok [], traced [OpGet slugs_list_key] w1).
Proof.
  apply (cache_expires_after_ttl (codec:=plain_codec)
           [docker_script; portainer_script] empty_world 43200).
  - repeat constructor; eexists; eexists; split; reflexivity.
  - by vm_compute.
Defined.

Lemma two_scripts_cacheable :
  Forall (cacheable (codec:=plain_codec)) [docker_script; portainer_script].
Proof.
  repeat constructor; eexists _, _; repeat split; try reflexivity; by vm_compute.
Qed.

Lemma search_after_init_is_offline_witness :
  let w1 := at_time 3600
              (init (codec:=plain_codec) (answers two_scripts_payload) empty_world).2 in
  (init (codec:=plain_codec) (answers two_scripts_payload) empty_world).1 = Ok true ∧
  search (codec:=plain_codec) (str "docker") TransportFailure w1 =
    (Ok (results_of (rank [docker_script; portainer_script]
                       (split (lower (str "docker"))))),
     traced (OpGet slugs_list_key
             :: map (λ sc, OpGet (script_key (slug sc)))
                  [docker_script; portainer_script]) w1).
Proof.
  apply (search_after_init_is_offline (codec:=plain_codec)
           (answers two_scripts_payload) TransportFailure empty_world
           [docker_script; portainer_script] 3600 (str "docker")).
  - by vm_compute.
  - discriminate.
  - apply two_scripts_cacheable.
  - repeat constructor; by vm_compute.
  - by vm_compute.
  - reflexivity.
Defined.

Lemma search_miss_then_hit_witness :
  let w1 := at_time 3600
              (search (codec:=plain_codec) (str "docker")
                 (answers two_scripts_payload) empty_world).2 in
  (search (codec:=plain_codec) (str "docker")
     (answers two_scripts_payload) empty_world).1
  = Ok (results_of (rank [docker_script; portainer_script]
                      (split (lower (str "docker"))))) ∧
  search (codec:=plain_codec) (str "portainer") Timeout w1 =
    (Ok (results_of (rank [docker_script; portainer_script]
                       (split (lower (str "portainer"))))),
     traced (OpGet slugs_list_key
             :: map (λ sc, OpGet (script_key (slug sc)))
                  [docker_script; portainer_script]) w1).
Proof.
  apply (search_miss_then_hit (codec:=plain_codec)
           (answers two_scripts_payload) Timeout empty_world
           [docker_script; portainer_script] 3600 (str "docker") (str "portainer")).
  - intros s l H. vm_compute in H. discriminate.
  - by vm_compute.
  - discriminate.
  - apply two_scripts_cacheable.
  - repeat constructor; by vm_compute.
  - by vm_compute.
  - reflexivity.
  - reflexivity.
Defined.


Section CacheTraffic.
Context `{codec : Codec}.

Lemma record_write_cons sc scripts op :
  record_write scripts op → record_write (sc :: scripts) op.
Proof.
  intros (sc' & c & Hin & Henc & Hfit & ->). exists sc', c.
  split; [by right|done].
Qed.

Lemma cache_loop_trace scripts slugs w :
  Forall (λ sc, ∃ compressed, encodes sc compressed) scripts →
  ∃ writes,
    trace (cache_loop scripts slugs w).2 = trace w ++ writes ∧
    Forall (record_write scripts) writes.
Proof.
  intros Hall. revert slugs w.
  induction Hall as [|sc scripts (c & b & Hd & Hc) _ IH]; intros slugs w.
  - exists []. simpl. by rewrite app_nil_r.
  - rewrite (cache_loop_cons _ _ _ _ _ _ Hd Hc).
    assert (∀ slugs' w', ∃ writes,
              trace (cache_loop scripts slugs' w').2 = trace w' ++ writes ∧
              Forall (record_write (sc :: scripts)) writes) as IH'.
    { intros slugs' w'. destruct (IH slugs' w') as (writes & Ht & Hw).
      exists writes. split; [done|].
      eapply Forall_impl; [exact Hw|]. apply record_write_cons. }
    destruct (slug sc) as [|a l] eqn:Hs; [apply IH'|].
    destruct (too_large c) eqn:Hfit; [apply IH'|].
    destruct (IH' (slugs ++ [a :: l])
                (put (script_key (a :: l)) (VBytes c) _CACHE_TTL w))
      as (writes & Ht & Hw).
    exists (OpSet (script_key (a :: l)) (VBytes c) _CACHE_TTL :: writes).
    split.
    + rewrite Ht. unfold put. simpl. by rewrite <- app_assoc.
    + constructor; [|done]. exists sc, c. rewrite Hs.
      split; [left|]. split; [by exists b|done].
Qed.

(** X16. A refresh writes the index last: when every record serializes and
    compresses, the cache calls of the write are [set] calls for records
    within the size cap, each with the compressed value of its record, then
    the one [set] of the index, and nothing else. *)
Theorem cache_write_ends_with_index (scripts : list script) (w : world) :
  Forall (λ sc, ∃ compressed, encodes sc compressed) scripts →
  ∃ writes slugs,
    trace (cache_scripts scripts w).2
    = trace w ++ writes ++ [OpSet slugs_list_key (VList slugs) _CACHE_TTL] ∧
    Forall (record_write scripts) writes.
Proof.
  intros Henc. rewrite (cache_scripts_run scripts w Henc). cbn [snd].
  destruct (cache_loop_trace scripts [] w Henc) as (writes & Ht & Hw).
  exists writes, (indexed_slugs scripts). split; [|done].
  unfold put. simpl. by rewrite Ht, <- app_assoc.
Qed.

Lemma read_loop_gets slugs temp w :
  ∃ keys, (read_loop slugs temp w).2 = traced (map OpGet keys) w.
Proof.
  revert temp w. induction slugs as [|s slugs IH]; intros temp w.
  - exists []. unfold traced. simpl. rewrite app_nil_r. by destruct w.
  - simpl. unfold bind at 1, CACHE_get at 1.
    change (World (store w) (clock w) (trace w ++ [OpGet (script_key s)]))
      with (traced (map OpGet [script_key s]) w).
    destruct (truthy _); [|by eexists].
    unfold bind, try_except, lift, ret.
    destruct (decompress_value _) as [b|e]; cbn [fst snd].
    + destruct (pickle_loads b) as [sc|e]; cbn [fst snd].
      * destruct (IH (temp ++ [sc]) (traced (map OpGet [script_key s]) w))
          as [keys ->].
        rewrite traced_traced, <- map_app. by eexists.
      * destruct (caught e _); by eexists.
    + destruct (caught e _); by eexists.
Qed.

(** X17. The read path only reads: for every cache, whatever the entries
    hold and whatever the codec does (also when an exception leaves the
    loop), it leaves the stored entries and the clock as they were, and the
    calls it makes to the cache are lookups, the first of them of the
    index. *)
Theorem read_path_is_read_only (w : world) :
  let w' := (read_cached_scripts w).2 in
  store w' = store w ∧ clock w' = clock w ∧
  ∃ keys, trace w' = trace w ++ map OpGet (slugs_list_key :: keys).
Proof.
  assert (∃ keys, (read_cached_scripts w).2
                  = traced (map OpGet (slugs_list_key :: keys)) w) as [keys Hw].
  { unfold read_cached_scripts, bind at 1, CACHE_get at 1.
    change (World (store w) (clock w) (trace w ++ [OpGet slugs_list_key]))
      with (traced (map OpGet [slugs_list_key]) w).
    destruct (store_get slugs_list_key (clock w) (store w)) as [[b|[|s l]]|];
      try by exists [].
    unfold bind.
    destruct (read_loop_gets (s :: l) [] (traced (map OpGet [slugs_list_key]) w))
      as [keys Hkeys].
    destruct (read_loop (s :: l) [] (traced (map OpGet [slugs_list_key]) w))
      as [[[ok temp]|e] w1]; cbn [fst snd] in *; subst w1;
      rewrite traced_traced, <- map_app; exists keys; by destruct ok || done. }
  intros w'. unfold w'. rewrite Hw. repeat split. by exists keys.
Qed.

End CacheTraffic.

Lemma cache_write_ends_with_index_witness :
  ∃ writes slugs,
    trace (cache_scripts (codec:=plain_codec) [docker_script; huge_script]
             empty_world).2
    = trace empty_world ++ writes
      ++ [OpSet slugs_list_key (VList slugs) _CACHE_TTL] ∧
    Forall (record_write (codec:=plain_codec) [docker_script; huge_script]) writes.
Proof.
  apply (cache_write_ends_with_index (codec:=plain_codec)).
  repeat constructor; eexists; eexists; split; reflexivity.
Defined.
